(** * CameraAppTest: motion detector, convex hull and alert state machine

    A shallow embedding of [src/App.tsx] (with [src/types.ts]) and the
    properties of its specification.

    Conventions of the embedding.
    - JavaScript numbers that the program only ever uses as integers
      (pixel channels, grid coordinates, millisecond clock readings,
      slider values) are modelled as [Z], with exact arithmetic.  The
      arithmetic of the source is that of doubles, which is exact as long
      as every value is an integer of magnitude up to 2^53: the properties
      of the hull that depend on the sign of [cross] are stated for
      coordinates in that range ([inRange]), where the hull computed on
      doubles is the hull computed exactly ([getConvexHullNumber_exact]).
    - An array read out of range gives [undefined]; arithmetic on it gives
      [NaN], and every comparison with [NaN] is false.  Such reads are
      modelled with [option]: [None] stands for [undefined]/[NaN].
    - React state ([useState]) and refs ([useRef]) are fields of one record
      that every handler takes and returns. *)

From Stdlib Require Import Ascii String DecimalString.
From Stdlib Require DecimalZ.
From Stdlib Require Import ZArith List Bool Lia Permutation Sorted.
Import ListNotations.
Local Open Scope Z_scope.

(* ================================================================== *)
(** * Geometry: [Point], [cross], [getConvexHull] *)
(* ================================================================== *)

(** [interface Point { x: number; y: number }] *)
Record Point : Set := mkPoint { x : Z; y : Z }.

(** [cross(o, a, b)]: cross product of the vectors OA and OB, on integer
    coordinates and computed exactly.  The source computes it on
    JavaScript numbers: that is [crossNumber] below, which returns the same
    value as long as the coordinates are [inRange]
    ([crossNumber_exact]). *)
Definition cross (o a b : Point) : Z :=
  (x a - x o) * (y b - y o) - (y a - y o) * (x b - x o).

(** The comparator handed to [points.sort]. *)
Definition comparePoints (a b : Point) : Z :=
  if x a =? x b then y a - y b else x a - x b.

(** [Array.prototype.sort] is a stable comparison sort.  It is modelled by
    a stable insertion sort: [a] goes in front of the first element it does
    not compare greater than. *)
Fixpoint insertPoint (a : Point) (l : list Point) : list Point :=
  match l with
  | [] => [a]
  | b :: l' =>
      if comparePoints a b <=? 0 then a :: b :: l' else b :: insertPoint a l'
  end.

Fixpoint sortPoints (l : list Point) : list Point :=
  match l with
  | [] => []
  | a :: l' => insertPoint a (sortPoints l')
  end.

(** The arrays [lower] and [upper] are stacks: they are kept with their
    last element first, so that [push] is a cons and [pop] a tail.

    [popWhile stack p] is the inner loop
    [while (s.length >= 2 && cross(s[s.length-2], s[s.length-1], p) <= 0) s.pop()]. *)
Fixpoint popWhile (stack : list Point) (p : Point) : list Point :=
  match stack with
  | b :: ((a :: _) as rest) =>
      if cross a b p <=? 0 then popWhile rest p else stack
  | _ => stack
  end.

(** One turn of the outer loop: the pops, then [s.push(p)]. *)
Definition pushPoint (stack : list Point) (p : Point) : list Point :=
  p :: popWhile stack p.

(** The outer loop over the points in the order given, from an empty stack. *)
Definition buildChain (pts : list Point) : list Point :=
  fold_left pushPoint pts [].

(** [getConvexHull(points)].  The lower chain reads the sorted points from
    index [0] up, the upper chain from index [n-1] down; each loses its last
    element ([pop]) and [lower.concat(upper)] is returned.  (The in-place
    sort of the argument is not observed by any caller and is left out.) *)
Definition getConvexHull (points : list Point) : list Point :=
  if (Z.of_nat (length points) <=? 2) then points
  else
    let sorted := sortPoints points in
    let lower := buildChain sorted in
    let upper := buildChain (rev sorted) in
    rev (tl lower) ++ rev (tl upper).

(** ** The same computation on JavaScript numbers

    A JavaScript number is an IEEE double.  Every integer of magnitude up
    to 2^53 is a double, and a subtraction or a multiplication of doubles
    returns the double nearest to the exact result, the one with the even
    significand on a tie.  [roundNumber z] is that double for an integer
    [z] (of magnitude below 2^1024, where there is no overflow). *)
Definition roundNumber (z : Z) : Z :=
  if Z.abs z <=? 9007199254740992 then z
  else
    let ulp := 2 ^ (Z.log2 (Z.abs z) - 52) in
    let q := Z.abs z / ulp in
    let rest := Z.abs z mod ulp in
    let q' :=
      if 2 * rest <? ulp then q
      else if ulp <? 2 * rest then q + 1
      else if Z.even q then q else q + 1 in
    Z.sgn z * (q' * ulp).

(** [(a.x - o.x) * (b.y - o.y) - (a.y - o.y) * (b.x - o.x)], every
    operation rounded. *)
Definition crossNumber (o a b : Point) : Z :=
  roundNumber
    (roundNumber (roundNumber (x a - x o) * roundNumber (y b - y o))
     - roundNumber (roundNumber (y a - y o) * roundNumber (x b - x o))).

(** [getConvexHull] with [cross] computed on numbers.  The comparator of
    the sort is used through its sign only, which rounding does not
    change. *)
Fixpoint popWhileNumber (stack : list Point) (p : Point) : list Point :=
  match stack with
  | b :: ((a :: _) as rest) =>
      if crossNumber a b p <=? 0 then popWhileNumber rest p else stack
  | _ => stack
  end.

Definition pushPointNumber (stack : list Point) (p : Point) : list Point :=
  p :: popWhileNumber stack p.

Definition buildChainNumber (pts : list Point) : list Point :=
  fold_left pushPointNumber pts [].

Definition getConvexHullNumber (points : list Point) : list Point :=
  if (Z.of_nat (length points) <=? 2) then points
  else
    let sorted := sortPoints points in
    let lower := buildChainNumber sorted in
    let upper := buildChainNumber (rev sorted) in
    rev (tl lower) ++ rev (tl upper).

(* ================================================================== *)
(** * Frame differencing (the comparison loop of [detectMotion]) *)
(* ================================================================== *)

(** [const width = 64; const height = 48;] *)
Definition width : Z := 64.
Definition height : Z := 48.

(** [Math.abs(data[i] - prev[i])]: [NaN] as soon as one read is out of
    range. *)
Definition channelDiff (data prev : list Z) (i : nat) : option Z :=
  match nth_error data i, nth_error prev i with
  | Some d, Some q => Some (Z.abs (d - q))
  | _, _ => None
  end.

(** [rDiff + gDiff + bDiff] for the pixel that starts at index [i]. *)
Definition pixelDiff (data prev : list Z) (i : nat) : option Z :=
  match channelDiff data prev i,
        channelDiff data prev (i + 1),
        channelDiff data prev (i + 2) with
  | Some r, Some g, Some b => Some (r + g + b)
  | _, _, _ => None
  end.

(** [rDiff + gDiff + bDiff > config.sensitivity]; false on [NaN]. *)
Definition exceedsSensitivity (sensitivity : Z) (d : option Z) : bool :=
  match d with
  | Some s => sensitivity <? s
  | None => false
  end.

(** [{ x: pIdx % width, y: Math.floor(pIdx / width) }] with [pIdx = i / 4]. *)
Definition pixelPoint (i : nat) : Point :=
  let pIdx := Z.of_nat i / 4 in
  mkPoint (pIdx mod width) (pIdx / width).

(** [for (let i = 0; i < data.length; i += 4) { ... activePixels.push(..) }],
    started at index [i]; [fuel] bounds the number of turns. *)
Fixpoint compareLoop (sensitivity : Z) (data prev : list Z)
    (fuel i : nat) : list Point :=
  match fuel with
  | O => []
  | S fuel' =>
      if (i <? length data)%nat then
        let rest := compareLoop sensitivity data prev fuel' (i + 4) in
        if exceedsSensitivity sensitivity (pixelDiff data prev i)
        then pixelPoint i :: rest
        else rest
      else []
  end.

(** The loop from [i = 0].  Every turn advances [i] by 4, so [data.length]
    turns always reach the exit test (lemma [compareLoop_fuel]). *)
Definition activePixels (sensitivity : Z) (data prev : list Z) : list Point :=
  compareLoop sensitivity data prev (length data) 0.

(** How a JavaScript call ends: it returns a value or it throws. *)
Inductive Completion (A : Type) : Type :=
  | Normal (a : A)
  | Throw (message : String.string).
Arguments Normal {A} a.
Arguments Throw {A} message.

(** The comparison is straight-line code around the loop: there is no
    [throw] in it and no shape test on the two buffers. *)
Definition compareFrames (sensitivity : Z) (data prev : list Z)
  : Completion (list Point) :=
  Normal (activePixels sensitivity data prev).

(* ================================================================== *)
(** * Application state, [handleMotionDetected], [detectMotion] *)
(* ================================================================== *)

(** [src/types.ts] *)
Record MotionLog : Set := mkMotionLog {
  id : String.string;
  timestamp : Z;
  imageUrl : String.string;
  analysis : option String.string;
  isAnalyzing : bool
}.

Record AppConfig : Set := mkAppConfig {
  sensitivity : Z;
  threshold : Z;
  enableAudio : bool;
  enableAI : bool;
  cooldown : Z
}.

Inductive DetectionStatus : Set := IDLE | DETECTING | ALERT.

Definition DEFAULT_CONFIG : AppConfig :=
  {| sensitivity := 20; threshold := 150;
     enableAudio := true; enableAI := true; cooldown := 5 |}.

Definition MAX_LOGS : nat := 20.

(** The [useState] cells and [useRef] boxes of [App] that the detection
    pipeline touches, and three cells that record its effects on the
    outside: the alert sounds started, the polygon last painted on the
    overlay, and the calls of [analyzeSecuritySnapshot] not yet settled,
    each with the [newLogId] its continuation will patch.  [config] is the
    configuration that the running callbacks hold. *)
Record AppState : Type := mkAppState {
  config : AppConfig;
  status : DetectionStatus;
  logs : list MotionLog;
  debugDiff : Z;
  lastAlertTime : Z;
  prevFrameData : option (list Z);
  alertSounds : nat;
  overlayPolygon : list Point;
  pendingAnalyses : list (String.string * String.string)
}.

Definition initialState : AppState :=
  {| config := DEFAULT_CONFIG; status := IDLE; logs := []; debugDiff := 0;
     lastAlertTime := 0; prevFrameData := None; alertSounds := 0;
     overlayPolygon := []; pendingAnalyses := [] |}.

Definition setStatus (s : DetectionStatus) (st : AppState) : AppState :=
  {| config := config st; status := s; logs := logs st;
     debugDiff := debugDiff st; lastAlertTime := lastAlertTime st;
     prevFrameData := prevFrameData st; alertSounds := alertSounds st;
     overlayPolygon := overlayPolygon st;
     pendingAnalyses := pendingAnalyses st |}.

Definition setLogs (f : list MotionLog -> list MotionLog) (st : AppState)
  : AppState :=
  {| config := config st; status := status st; logs := f (logs st);
     debugDiff := debugDiff st; lastAlertTime := lastAlertTime st;
     prevFrameData := prevFrameData st; alertSounds := alertSounds st;
     overlayPolygon := overlayPolygon st;
     pendingAnalyses := pendingAnalyses st |}.

Definition setDebugDiff (n : Z) (st : AppState) : AppState :=
  {| config := config st; status := status st; logs := logs st;
     debugDiff := n; lastAlertTime := lastAlertTime st;
     prevFrameData := prevFrameData st; alertSounds := alertSounds st;
     overlayPolygon := overlayPolygon st;
     pendingAnalyses := pendingAnalyses st |}.

Definition setLastAlertTime (t : Z) (st : AppState) : AppState :=
  {| config := config st; status := status st; logs := logs st;
     debugDiff := debugDiff st; lastAlertTime := t;
     prevFrameData := prevFrameData st; alertSounds := alertSounds st;
     overlayPolygon := overlayPolygon st;
     pendingAnalyses := pendingAnalyses st |}.

Definition setPrevFrameData (d : list Z) (st : AppState) : AppState :=
  {| config := config st; status := status st; logs := logs st;
     debugDiff := debugDiff st; lastAlertTime := lastAlertTime st;
     prevFrameData := Some d; alertSounds := alertSounds st;
     overlayPolygon := overlayPolygon st;
     pendingAnalyses := pendingAnalyses st |}.

Definition setOverlayPolygon (h : list Point) (st : AppState) : AppState :=
  {| config := config st; status := status st; logs := logs st;
     debugDiff := debugDiff st; lastAlertTime := lastAlertTime st;
     prevFrameData := prevFrameData st; alertSounds := alertSounds st;
     overlayPolygon := h;
     pendingAnalyses := pendingAnalyses st |}.

Definition setPendingAnalyses (l : list (String.string * String.string))
    (st : AppState) : AppState :=
  {| config := config st; status := status st; logs := logs st;
     debugDiff := debugDiff st; lastAlertTime := lastAlertTime st;
     prevFrameData := prevFrameData st; alertSounds := alertSounds st;
     overlayPolygon := overlayPolygon st;
     pendingAnalyses := l |}.

(** [playAlertSound]: returns at once unless [config.enableAudio]; otherwise
    one oscillator is started. *)
Definition playAlertSound (st : AppState) : AppState :=
  if enableAudio (config st) then
    {| config := config st; status := status st; logs := logs st;
       debugDiff := debugDiff st; lastAlertTime := lastAlertTime st;
       prevFrameData := prevFrameData st; alertSounds := S (alertSounds st);
       overlayPolygon := overlayPolygon st;
       pendingAnalyses := pendingAnalyses st |}
  else st.

(** What one run of [handleMotionDetected] reads from outside: the two
    [Date.now()] calls, [new Date()], and the video element
    ([None] when [videoRef.current] is null, otherwise the string that
    [captureCanvas.toDataURL] gives). *)
Record Reading : Set := mkReading {
  clockNow : Z;
  clockId : Z;
  clockStamp : Z;
  video : option String.string
}.

(** [Date.now().toString()] *)
Definition toString (n : Z) : String.string :=
  DecimalString.NilZero.string_of_int (Z.to_int n).

(** Truthiness of a string: non-empty. *)
Definition truthy (s : String.string) : bool :=
  negb (String.eqb s String.EmptyString).

(** [[newLog, ...prev].slice(0, MAX_LOGS)] *)
Definition prependLog (newLog : MotionLog) (prev : list MotionLog)
  : list MotionLog :=
  firstn MAX_LOGS (newLog :: prev).

(** [prev.map(log => log.id === newLogId
        ? { ...log, analysis: description, isAnalyzing: false } : log)] *)
Definition patchLog (newLogId description : String.string)
    (prev : list MotionLog) : list MotionLog :=
  map (fun log =>
         if String.eqb (id log) newLogId
         then {| id := id log; timestamp := timestamp log;
                 imageUrl := imageUrl log; analysis := Some description;
                 isAnalyzing := false |}
         else log) prev.

(** [handleMotionDetected], up to its [await]. *)
Definition handleMotionDetected (r : Reading) (st : AppState) : AppState :=
  let now := clockNow r in
  if now - lastAlertTime st <? cooldown (config st) * 1000 then
    (* Still in cooldown, but visually show alert state *)
    setStatus ALERT st
  else
    let st := setLastAlertTime now st in
    let st := setStatus ALERT st in
    let st := playAlertSound st in
    let snapshotUrl :=
      match video r with
      | Some url => url
      | None => String.EmptyString
      end in
    let newLogId := toString (clockId r) in
    let newLog :=
      {| id := newLogId; timestamp := clockStamp r; imageUrl := snapshotUrl;
         analysis := None; isAnalyzing := enableAI (config st) |} in
    let st := setLogs (prependLog newLog) st in
    if enableAI (config st) && truthy snapshotUrl then
      setPendingAnalyses (pendingAnalyses st ++ [(newLogId, snapshotUrl)]) st
    else st.

(** The two continuations of [await analyzeSecuritySnapshot(snapshotUrl)]:
    the promise is fulfilled with [description], or it is rejected. *)
Definition analysisFulfilled (newLogId description : String.string)
    (st : AppState) : AppState :=
  setLogs (patchLog newLogId description) st.

Definition analysisRejected (newLogId : String.string) (st : AppState)
  : AppState :=
  setLogs (patchLog newLogId "Analysis unavailable."%string) st.

(** [detectMotion], one run of the interval callback.  [frame] is [None]
    when one of the early [return]s is taken (a ref is null, no 2d context,
    or [video.readyState !== 4]); otherwise it is [frameData.data].  [r] is
    what [handleMotionDetected] reads if it is called.  (A run that gets a
    frame has a video element; [handleMotionDetected] tests
    [videoRef.current] again on its own, and the embedding lets [r] say
    either.) *)
Definition detectMotion (frame : option (list Z)) (r : Reading)
    (st : AppState) : AppState :=
  match frame with
  | None => st
  | Some data =>
      let st :=
        match prevFrameData st with
        | Some prev =>
            let pixels := activePixels (sensitivity (config st)) data prev in
            let st := setDebugDiff (Z.of_nat (length pixels)) st in
            (* overlayCtx.clearRect *)
            let st := setOverlayPolygon [] st in
            if threshold (config st) <? Z.of_nat (length pixels) then
              let st := handleMotionDetected r st in
              setOverlayPolygon (getConvexHull pixels) st
            else
              setStatus IDLE st
        | None => st
        end in
      setPrevFrameData data st
  end.

(** What can happen to the application: the interval fires, or a pending
    [analyzeSecuritySnapshot] call settles. *)
Inductive Event : Type :=
  | Tick (frame : option (list Z)) (r : Reading)
  | Fulfilled (newLogId description : String.string)
  | Rejected (newLogId : String.string).

Definition isPending (newLogId : String.string) (st : AppState) : bool :=
  existsb (fun c => String.eqb (fst c) newLogId) (pendingAnalyses st).

(** Settling a call takes it off the pending list; each call settles once. *)
Fixpoint removePending (newLogId : String.string)
    (l : list (String.string * String.string))
  : list (String.string * String.string) :=
  match l with
  | [] => []
  | c :: l' =>
      if String.eqb (fst c) newLogId then l'
      else c :: removePending newLogId l'
  end.

Definition step (st : AppState) (e : Event) : AppState :=
  match e with
  | Tick frame r => detectMotion frame r st
  | Fulfilled newLogId description =>
      if isPending newLogId st then
        analysisFulfilled newLogId description
          (setPendingAnalyses (removePending newLogId (pendingAnalyses st)) st)
      else st
  | Rejected newLogId =>
      if isPending newLogId st then
        analysisRejected newLogId
          (setPendingAnalyses (removePending newLogId (pendingAnalyses st)) st)
      else st
  end.

Definition run (events : list Event) (st : AppState) : AppState :=
  fold_left step events st.

(* ================================================================== *)
(** * Predicates used to state the properties *)
(* ================================================================== *)

(** The order that [comparePoints] sorts by: [x] first, then [y]. *)
Definition lexle (a b : Point) : Prop := comparePoints a b <= 0.
Definition lexlt (a b : Point) : Prop := comparePoints a b < 0.

(** The coordinates of [p] have magnitude at most 2^25.  For three such
    points every intermediate value of [cross] has magnitude at most 2^53
    and the computation on numbers is exact.  The pixels of the 64 x 48
    grid, the only points the application passes to [getConvexHull], are
    in range. *)
Definition inRange (p : Point) : Prop :=
  Z.abs (x p) <= 33554432 /\ Z.abs (y p) <= 33554432.

(** All points of [l] lie on one line. *)
Definition collinear (l : list Point) : Prop :=
  forall p q r, In p l -> In q l -> In r l -> cross p q r = 0.

(** [l], read as a closed loop, turns counter-clockwise at every vertex
    ([cross] is positive for a counter-clockwise turn). *)
Fixpoint leftTurns (l : list Point) : Prop :=
  match l with
  | a :: ((b :: c :: _) as l') => 0 < cross a b c /\ leftTurns l'
  | _ => True
  end.

Definition counterClockwise (l : list Point) : Prop :=
  leftTurns (l ++ firstn 2 l).



(** The coordinate of pixel number [k] (row-major, [width] pixels a row),
    and the sum of the absolute differences of its three colour channels
    between two buffers of RGBA samples. *)
Definition coordinate (k : nat) : Point :=
  mkPoint (Z.of_nat k mod width) (Z.of_nat k / width).

Definition colourDistance (data prev : list Z) (k : nat) : Z :=
  Z.abs (nth (4 * k) data 0 - nth (4 * k) prev 0)
  + Z.abs (nth (4 * k + 1) data 0 - nth (4 * k + 1) prev 0)
  + Z.abs (nth (4 * k + 2) data 0 - nth (4 * k + 2) prev 0).

(** The snapshot that [handleMotionDetected] ends up with. *)
Definition snapshotOf (r : Reading) : String.string :=
  match video r with
  | Some url => url
  | None => String.EmptyString
  end.

(** The cooldown test of [handleMotionDetected]. *)
Definition inCooldown (r : Reading) (st : AppState) : Prop :=
  clockNow r - lastAlertTime st < cooldown (config st) * 1000.

(** No tick of [events] draws the identifier [i] from the clock. *)
Definition neverIssues (i : String.string) (events : list Event) : Prop :=
  Forall (fun e =>
            match e with
            | Tick _ r => toString (clockId r) <> i
            | _ => True
            end) events.



(** [c] is a vertex of the lower (resp. upper) boundary of [l]: it lies
    strictly to the right of (resp. strictly to the left of) every segment
    from a point of [l] before it to a point of [l] after it in the sorting
    order.  The first and the last point of [l] are both. *)
Definition lowerVertex (l : list Point) (c : Point) : Prop :=
  forall a b, In a l -> In b l -> lexlt a c -> lexlt c b -> cross a b c < 0.

Definition upperVertex (l : list Point) (c : Point) : Prop :=
  forall a b, In a l -> In b l -> lexlt a c -> lexlt c b -> 0 < cross a b c.

(** The point reflection in the origin.  It keeps [cross] and reverses the
    sorting order, so it turns the loop that builds the upper chain into
    the loop that builds the lower chain. *)
Definition negPoint (p : Point) : Point := mkPoint (- x p) (- y p).

(** What the outer loop of [buildChain] keeps true of its stack [st] (last
    element first) once it has pushed the points [done], taken in sorting
    order: the stack is made of pushed points; its top is the last and its
    bottom the first of them; it is sorted; it turns left at every element;
    and every pushed point is on the left of, or on, every edge. *)
Record chainInv (done st : list Point) : Prop := mkChainInv {
  ci_sub : forall c, In c st -> In c done;
  ci_nonempty : forall q, In q done -> st <> [];
  ci_top : forall q t l, In q done -> st = t :: l -> lexle q t;
  ci_bottom : forall q l b, In q done -> st = l ++ [b] -> lexle b q;
  ci_sorted : forall l1 v u l2, st = l1 ++ v :: u :: l2 -> lexle u v;
  ci_convex : forall l1 n c p l2,
      st = l1 ++ n :: c :: p :: l2 -> 0 < cross p c n;
  ci_left : forall q l1 v u l2,
      In q done -> st = l1 ++ v :: u :: l2 -> 0 <= cross u v q
}.

(** Sample states and entries for the worked instances. *)
Definition alertedState : AppState :=
  setLastAlertTime 1700000000000 initialState.

Definition darkFrame : list Z := repeat 0 800.
Definition brightFrame : list Z := repeat 255 800.

Definition readingAt (t : Z) : Reading :=
  {| clockNow := t; clockId := t + 1; clockStamp := t + 1;
     video := Some "data:image/jpeg;base64,AA"%string |}.

Definition sampleLog (n : Z) : MotionLog :=
  {| id := toString n; timestamp := n; imageUrl := "data:,"%string;
     analysis := None; isAnalyzing := false |}.

(* ================================================================== *)
(** * The description service and the log item *)
(* ================================================================== *)

(** [s.split(sep)] for a one-character separator: the pieces of [s]
    between the separators, in order; one piece when there is none. *)
Fixpoint split (sep : Ascii.ascii) (s : String.string)
  : list String.string :=
  match s with
  | String.EmptyString => [String.EmptyString]
  | String.String c s' =>
      if Ascii.eqb c sep then String.EmptyString :: split sep s'
      else
        match split sep s' with
        | piece :: pieces => String.String c piece :: pieces
        | [] => [String.String c String.EmptyString]
        end
  end.

(** [const cleanBase64 = base64Image.split(',')[1] || base64Image] *)
Definition cleanBase64 (base64Image : String.string) : String.string :=
  match nth_error (split ","%char base64Image) 1 with
  | Some piece => if truthy piece then piece else base64Image
  | None => base64Image
  end.

(** How [await ai.models.generateContent(...)] ends: it throws, or it gives
    a response whose [text] is a string or undefined. *)
Inductive Generated : Set :=
  | GenerateFailed
  | GenerateResponse (text : option String.string).

Section GeminiService.

(** [String.prototype.trim], and the remote model as a function of the
    image data it is sent. *)
Variable trim : String.string -> String.string.
Variable generateContent : String.string -> Generated.

(** [analyzeSecuritySnapshot(base64Image)]: the string its promise is
    fulfilled with.  The whole body is inside [try]/[catch], and the
    [catch] returns a string: the promise is never rejected. *)
Definition analyzeSecuritySnapshot (base64Image : String.string)
  : String.string :=
  match generateContent (cleanBase64 base64Image) with
  | GenerateResponse (Some text) =>
      if truthy (trim text) then trim text else "Activity detected."%string
  | GenerateResponse None => "Activity detected."%string
  | GenerateFailed => "Analysis failed due to network or API error."%string
  end.

End GeminiService.

(** What [MotionLogItem] writes under the time of an entry:
    [log.isAnalyzing ? "Analyzing..." : (log.analysis || "Motion Detected")]. *)
Definition itemText (log : MotionLog) : String.string :=
  if isAnalyzing log then "Analyzing..."%string
  else
    match analysis log with
    | Some a => if truthy a then a else "Motion Detected"%string
    | None => "Motion Detected"%string
    end.

(** [u] and [v] follow each other on the closed loop [l] (the last vertex
    is followed by the first). *)
Definition loopEdge (l : list Point) (u v : Point) : Prop :=
  exists l1 l2, l ++ firstn 1 l = l1 ++ u :: v :: l2.

(** Every three consecutive elements of [l] make a strict left turn. *)
Definition triplesLeft (l : list Point) : Prop :=
  forall l1 u v w l2, l = l1 ++ u :: v :: w :: l2 -> 0 < cross u v w.

(** Every entry shown as being analysed either has no snapshot or has a
    call of [analyzeSecuritySnapshot] pending for its identifier. *)
Definition analysesAccounted (st : AppState) : Prop :=
  forall log, In log (logs st) -> isAnalyzing log = true ->
    imageUrl log = String.EmptyString \/ isPending (id log) st = true.

(** The tick sees motion: two frames are compared and the count of changed
    pixels exceeds the threshold. *)
Definition motionSeen (frame : option (list Z)) (st : AppState) : Prop :=
  exists data prev,
    frame = Some data /\ prevFrameData st = Some prev
    /\ threshold (config st)
       < Z.of_nat (length (activePixels (sensitivity (config st)) data prev)).

(** [c] occurs in the string [s]. *)
Fixpoint hasChar (c : Ascii.ascii) (s : String.string) : bool :=
  match s with
  | String.EmptyString => false
  | String.String c' s' => Ascii.eqb c' c || hasChar c s'
  end.

(** The number of pixels that the comparison loop visits. *)
Definition pixelCount (data : list Z) : nat := (length data + 3) / 4.

(** Pixel [k] counts as changed. *)
Definition changedAt (s : Z) (data prev : list Z) (k : nat) : bool :=
  exceedsSensitivity s (pixelDiff data prev (4 * k)).

(* ================================================================== *)
(** * Numbers: where the exact computation is the computation of the code *)
(* ================================================================== *)

(** Concrete points in range. *)
Ltac in_range :=
  repeat (apply Forall_cons; [split; simpl; lia|]); apply Forall_nil.

Lemma roundNumber_exact z :
  Z.abs z <= 9007199254740992 -> roundNumber z = z.
Proof.
  intros H. unfold roundNumber.
  destruct (Z.leb_spec (Z.abs z) 9007199254740992); [reflexivity|lia].
Qed.

Lemma product_bound u v :
  Z.abs u <= 67108864 -> Z.abs v <= 67108864 ->
  Z.abs (u * v) <= 4503599627370496.
Proof.
  intros Hu Hv. rewrite Z.abs_mul.
  change 4503599627370496 with (67108864 * 67108864).
  apply Z.mul_le_mono_nonneg; auto using Z.abs_nonneg.
Qed.

Lemma crossNumber_exact o a b :
  inRange o -> inRange a -> inRange b -> crossNumber o a b = cross o a b.
Proof.
  unfold inRange; intros [Hox Hoy] [Hax Hay] [Hbx Hby].
  assert (Z.abs (x a - x o) <= 67108864) as H1 by lia.
  assert (Z.abs (y b - y o) <= 67108864) as H2 by lia.
  assert (Z.abs (y a - y o) <= 67108864) as H3 by lia.
  assert (Z.abs (x b - x o) <= 67108864) as H4 by lia.
  pose proof (product_bound _ _ H1 H2) as P1.
  pose proof (product_bound _ _ H3 H4) as P2.
  unfold crossNumber, cross.
  rewrite (roundNumber_exact (x a - x o)) by lia.
  rewrite (roundNumber_exact (y b - y o)) by lia.
  rewrite (roundNumber_exact (y a - y o)) by lia.
  rewrite (roundNumber_exact (x b - x o)) by lia.
  rewrite (roundNumber_exact ((x a - x o) * (y b - y o))) by lia.
  rewrite (roundNumber_exact ((y a - y o) * (x b - x o))) by lia.
  apply roundNumber_exact. lia.
Qed.

(** Out of range the two differ: the product 94906267 * 94906267 is above
    2^53 and is rounded. *)
Example crossNumber_rounds :
  crossNumber (mkPoint 0 0) (mkPoint 94906267 94906266)
              (mkPoint 94906268 94906267) = 0
  /\ cross (mkPoint 0 0) (mkPoint 94906267 94906266)
           (mkPoint 94906268 94906267) = 1.
Proof.
  split; vm_compute; reflexivity.
Qed.

Lemma popWhile_inRange stack p :
  Forall inRange stack -> Forall inRange (popWhile stack p).
Proof.
  induction stack as [|b rest IH]; intros H; [exact H|].
  cbn [popWhile]. destruct rest as [|a rest']; [exact H|].
  destruct (cross a b p <=? 0); [|exact H].
  apply IH. now inversion H.
Qed.

Lemma popWhileNumber_exact stack p :
  Forall inRange stack -> inRange p ->
  popWhileNumber stack p = popWhile stack p.
Proof.
  intros H Hp. induction stack as [|b rest IH]; [reflexivity|].
  cbn [popWhileNumber popWhile]. destruct rest as [|a rest']; [reflexivity|].
  inversion H as [|? ? Hb Hrest]; subst.
  inversion Hrest as [|? ? Ha _]; subst.
  rewrite (crossNumber_exact a b p Ha Hb Hp).
  destruct (cross a b p <=? 0); [|reflexivity].
  apply IH, Hrest.
Qed.

Lemma buildChainNumber_exact pts :
  Forall inRange pts -> buildChainNumber pts = buildChain pts.
Proof.
  unfold buildChainNumber, buildChain.
  assert (forall stack, Forall inRange stack -> Forall inRange pts ->
            fold_left pushPointNumber pts stack
            = fold_left pushPoint pts stack) as H;
    [|intros Hp; apply H; [constructor|exact Hp]].
  induction pts as [|p pts IH]; intros stack Hs Hp; [reflexivity|].
  inversion Hp as [|? ? Hp1 Hp2]; subst.
  cbn [fold_left]. unfold pushPointNumber at 2, pushPoint at 2.
  rewrite (popWhileNumber_exact stack p Hs Hp1).
  apply IH; [|exact Hp2].
  constructor; [exact Hp1|apply popWhile_inRange, Hs].
Qed.

(* ================================================================== *)
(** * Sorting *)
(* ================================================================== *)

Lemma lexle_iff a b :
  lexle a b <-> x a < x b \/ (x a = x b /\ y a <= y b).
Proof.
  unfold lexle, comparePoints.
  destruct (Z.eqb_spec (x a) (x b)); lia.
Qed.

Lemma lexlt_iff a b :
  lexlt a b <-> x a < x b \/ (x a = x b /\ y a < y b).
Proof.
  unfold lexlt, comparePoints.
  destruct (Z.eqb_spec (x a) (x b)); lia.
Qed.

Lemma Point_eq a b : x a = x b -> y a = y b -> a = b.
Proof. destruct a, b; simpl; intros; subst; reflexivity. Qed.

Lemma lexle_refl a : lexle a a.
Proof. apply lexle_iff; lia. Qed.

Lemma lexle_trans a b c : lexle a b -> lexle b c -> lexle a c.
Proof. rewrite !lexle_iff; lia. Qed.

Lemma lexle_antisym a b : lexle a b -> lexle b a -> a = b.
Proof. rewrite !lexle_iff; intros; apply Point_eq; lia. Qed.

Lemma lexle_total a b : lexle a b \/ lexle b a.
Proof. rewrite !lexle_iff; lia. Qed.

Lemma lexlt_lexle a b : lexlt a b -> lexle a b.
Proof. rewrite lexle_iff, lexlt_iff; lia. Qed.

Lemma not_lexle a b : ~ lexle a b -> lexlt b a.
Proof. rewrite lexle_iff, lexlt_iff; lia. Qed.

Lemma lexle_cases a b : lexle a b -> a = b \/ lexlt a b.
Proof.
  rewrite lexle_iff, lexlt_iff; intros H.
  destruct (Z.eq_dec (x a) (x b)) as [Hx|Hx];
    destruct (Z.eq_dec (y a) (y b)) as [Hy|Hy];
    try (right; lia).
  left; now apply Point_eq.
Qed.

Lemma insertPoint_perm a l : Permutation (insertPoint a l) (a :: l).
Proof.
  induction l as [|b l IH]; simpl; [reflexivity|].
  destruct (comparePoints a b <=? 0); [reflexivity|].
  rewrite IH; apply perm_swap.
Qed.

Lemma sortPoints_perm l : Permutation (sortPoints l) l.
Proof.
  induction l as [|a l IH]; simpl; [constructor|].
  rewrite insertPoint_perm; now constructor.
Qed.

Lemma insertPoint_sorted a l :
  StronglySorted lexle l -> StronglySorted lexle (insertPoint a l).
Proof.
  induction 1 as [|b l Hs IH Hb]; simpl.
  - repeat constructor.
  - destruct (Z.leb_spec (comparePoints a b) 0) as [Hab|Hab].
    + constructor; [now constructor|].
      constructor; [exact Hab|].
      eapply Forall_impl; [|exact Hb].
      intros c Hc; eapply lexle_trans; eauto.
    + constructor; [exact IH|].
      rewrite (Forall_forall (lexle b)); intros c Hc.
      apply (Permutation_in _ (insertPoint_perm a l)) in Hc.
      destruct Hc as [<-|Hc].
      * apply lexlt_lexle, not_lexle; unfold lexle; lia.
      * rewrite Forall_forall in Hb; auto.
Qed.

Lemma sortPoints_sorted l : StronglySorted lexle (sortPoints l).
Proof.
  induction l; simpl; [constructor|now apply insertPoint_sorted].
Qed.

(** A sorted list is determined by its elements: two points that compare
    equal are the same point, so the result of the sort does not depend on
    how the sort treats ties. *)
Lemma sorted_perm_unique l1 : forall l2,
  StronglySorted lexle l1 -> StronglySorted lexle l2 ->
  Permutation l1 l2 -> l1 = l2.
Proof.
  induction l1 as [|a l1 IH]; intros l2 H1 H2 HP.
  - now apply Permutation_nil in HP.
  - destruct l2 as [|b l2].
    { symmetry in HP; now apply Permutation_nil in HP. }
    apply StronglySorted_inv in H1 as [H1 Ha].
    apply StronglySorted_inv in H2 as [H2 Hb].
    rewrite Forall_forall in Ha, Hb.
    assert (a = b) as ->.
    { assert (In a (b :: l2)) as Hin1
        by (apply (Permutation_in _ HP); now left).
      assert (In b (a :: l1)) as Hin2
        by (apply (Permutation_in _ (Permutation_sym HP)); now left).
      destruct Hin1 as [->|Hin1]; [reflexivity|].
      destruct Hin2 as [->|Hin2]; [reflexivity|].
      apply lexle_antisym; auto. }
    f_equal; apply IH; auto.
    eapply Permutation_cons_inv; eauto.
Qed.

Lemma sortPoints_permutation l l' :
  Permutation l l' -> sortPoints l = sortPoints l'.
Proof.
  intros HP; apply sorted_perm_unique; try apply sortPoints_sorted.
  rewrite !sortPoints_perm; exact HP.
Qed.

Lemma sortPoints_length l : length (sortPoints l) = length l.
Proof. apply Permutation_length, sortPoints_perm. Qed.

Lemma sortPoints_In l p : In p (sortPoints l) <-> In p l.
Proof.
  split; apply Permutation_in;
    [apply sortPoints_perm | apply Permutation_sym, sortPoints_perm].
Qed.

Lemma sortPoints_inRange l :
  Forall inRange l -> Forall inRange (sortPoints l).
Proof.
  rewrite !Forall_forall. intros H p Hp. apply H.
  now apply sortPoints_In.
Qed.

(** On points in range the hull computed on numbers is the hull computed
    exactly: there the embedding [getConvexHull] returns what the source
    returns. *)
Lemma getConvexHullNumber_exact points :
  Forall inRange points -> getConvexHullNumber points = getConvexHull points.
Proof.
  intros H. unfold getConvexHullNumber, getConvexHull.
  destruct (Z.of_nat (length points) <=? 2); [reflexivity|].
  cbv zeta. pose proof (sortPoints_inRange points H) as Hs.
  rewrite (buildChainNumber_exact _ Hs).
  rewrite (buildChainNumber_exact (rev (sortPoints points)));
    [reflexivity|].
  rewrite Forall_forall in *. intros p Hp. apply Hs. now apply in_rev.
Qed.

(** Out of range they differ: on numbers the middle point is dropped as
    if it were on the segment between the other two. *)
Example getConvexHullNumber_rounds :
  getConvexHullNumber
    [mkPoint 0 0; mkPoint 94906267 94906266; mkPoint 94906268 94906267]
  = [mkPoint 0 0; mkPoint 94906268 94906267]
  /\ getConvexHull
       [mkPoint 0 0; mkPoint 94906267 94906266; mkPoint 94906268 94906267]
     = [mkPoint 0 0; mkPoint 94906267 94906266; mkPoint 94906268 94906267].
Proof.
  split; vm_compute; reflexivity.
Qed.

(* ================================================================== *)
(** * Convex hull: small and degenerate inputs *)
(* ================================================================== *)

Lemma getConvexHull_short (points : list Point) :
  (length points <= 2)%nat -> getConvexHull points = points.
Proof.
  intros Hlen; unfold getConvexHull.
  destruct (Z.leb_spec (Z.of_nat (length points)) 2); [reflexivity|lia].
Qed.

(** C7.  An input of at most two points (none, one or two) is returned as
    it is: the function does not fail and does not reorder it. *)
Theorem getConvexHull_small (points : list Point) :
  (length points <= 2)%nat -> getConvexHull points = points.
Proof. exact (getConvexHull_short points). Qed.

Lemma getConvexHull_small_witness :
  getConvexHull [] = []
  /\ getConvexHull [mkPoint 3 4] = [mkPoint 3 4]
  /\ getConvexHull [mkPoint 5 1; mkPoint 2 7] = [mkPoint 5 1; mkPoint 2 7].
Proof.
  split; [|split].
  - apply (getConvexHull_small []); simpl; lia.
  - apply (getConvexHull_small [mkPoint 3 4]); simpl; lia.
  - apply (getConvexHull_small [mkPoint 5 1; mkPoint 2 7]); simpl; lia.
Defined.

Lemma getConvexHull_large (points : list Point) :
  (3 <= length points)%nat ->
  getConvexHull points =
    rev (tl (buildChain (sortPoints points)))
    ++ rev (tl (buildChain (rev (sortPoints points)))).
Proof.
  intros Hlen; unfold getConvexHull.
  destruct (Z.leb_spec (Z.of_nat (length points)) 2); [lia|reflexivity].
Qed.

Example hull_of_square_with_centre :
  getConvexHull [mkPoint 0 0; mkPoint 2 2; mkPoint 1 1; mkPoint 2 0; mkPoint 0 2]
  = [mkPoint 0 0; mkPoint 2 0; mkPoint 2 2; mkPoint 0 2].
Proof. reflexivity. Qed.

Example hull_of_diagonal :
  getConvexHull [mkPoint 2 2; mkPoint 0 0; mkPoint 3 3; mkPoint 1 1]
  = [mkPoint 0 0; mkPoint 3 3].
Proof. reflexivity. Qed.

Example hull_of_one_point_thrice :
  getConvexHull [mkPoint 4 5; mkPoint 4 5; mkPoint 4 5]
  = [mkPoint 4 5; mkPoint 4 5].
Proof. reflexivity. Qed.

Lemma last_cons_default {A} (l : list A) : forall a d d',
  last (a :: l) d = last (a :: l) d'.
Proof.
  induction l as [|b l IH]; intros a d d'; [reflexivity|].
  change (last (b :: l) d = last (b :: l) d'); apply IH.
Qed.

(** On points of one line every [cross] is zero, so each turn of the outer
    loop pops the stack down to its bottom element and pushes. *)
Lemma fold_pushPoint_collinear l : forall a t,
  collinear (a :: t :: l) ->
  fold_left pushPoint l [t; a] = [last (t :: l) t; a].
Proof.
  induction l as [|p l IH]; intros a t Hc; [reflexivity|].
  cbn [fold_left]. unfold pushPoint at 2. cbn [popWhile].
  rewrite (Hc a t p) by (simpl; auto). cbn [Z.leb Z.compare].
  rewrite IH.
  - f_equal. change (last (t :: p :: l) t) with (last (p :: l) t).
    apply last_cons_default.
  - intros u v w Hu Hv Hw; apply Hc; simpl in *; intuition.
Qed.

Lemma buildChain_collinear a b l :
  collinear (a :: b :: l) -> buildChain (a :: b :: l) = [last (b :: l) b; a].
Proof.
  intros Hc; unfold buildChain; cbn [fold_left]. unfold pushPoint at 2. cbn [popWhile].
  unfold pushPoint at 2; cbn [popWhile].
  now apply fold_pushPoint_collinear.
Qed.

Lemma collinear_perm l l' : Permutation l l' -> collinear l -> collinear l'.
Proof.
  intros HP Hc p q r Hp Hq Hr.
  apply Hc; eapply Permutation_in; try apply Permutation_sym; eauto.
Qed.

Lemma sorted_ends l :
  StronglySorted lexle l -> (2 <= length l)%nat ->
  exists a mid z, l = a :: mid ++ [z]
    /\ forall q, In q l -> lexle a q /\ lexle q z.
Proof.
  intros Hs Hlen.
  destruct l as [|a l]; [simpl in Hlen; lia|].
  destruct (exists_last (l:=l)) as (mid & z & ->).
  { destruct l; [simpl in Hlen; lia|discriminate]. }
  exists a, mid, z; split; [reflexivity|].
  intros q Hq; split.
  - destruct Hq as [<-|Hq]; [apply lexle_refl|].
    apply StronglySorted_inv in Hs as [_ Ha].
    rewrite Forall_forall in Ha; auto.
  - clear Hlen. revert Hs Hq.
    change (a :: mid ++ [z]) with ((a :: mid) ++ [z]).
    generalize (a :: mid) as l; clear a mid.
    induction l as [|c l IH]; simpl; intros Hs Hq.
    + destruct Hq as [<-|[]]; apply lexle_refl.
    + apply StronglySorted_inv in Hs as [Hs Hc].
      destruct Hq as [<-|Hq]; [|auto].
      rewrite Forall_forall in Hc; apply Hc, in_or_app; right; now left.
Qed.

(** C5.  Three or more points of one line, with coordinates in the range
    where the numbers of the source are exact: the hull is exactly the two
    ends of the set, the first and the last point in the sorting order
    (every input point lies between them on the line). *)
Theorem getConvexHull_collinear (points : list Point) :
  Forall inRange points ->
  (3 <= length points)%nat ->
  collinear points ->
  exists a b,
    getConvexHull points = [a; b]
    /\ In a points /\ In b points
    /\ forall q, In q points -> lexle a q /\ lexle q b.
Proof.
  intros _ Hlen Hc.
  rewrite getConvexHull_large by exact Hlen.
  pose proof (sortPoints_sorted points) as Hs.
  pose proof (sortPoints_perm points) as HP.
  destruct (sorted_ends _ Hs) as (a & mid & z & Heq & Hext).
  { rewrite sortPoints_length; lia. }
  assert (collinear (sortPoints points)) as Hcs
    by (eapply collinear_perm; [apply Permutation_sym|]; eauto).
  exists a, z.
  assert (In a points /\ In z points) as [Ha Hz].
  { split; apply sortPoints_In; rewrite Heq; simpl; auto.
    right; apply in_or_app; right; now left. }
  repeat split; auto; try (apply Hext; now apply sortPoints_In).
  assert (buildChain (sortPoints points) = [z; a]) as ->.
  { rewrite Heq in *. destruct mid as [|m mid]; simpl app in *.
    - now rewrite buildChain_collinear.
    - rewrite buildChain_collinear by exact Hcs.
      change (m :: mid ++ [z]) with ((m :: mid) ++ [z]).
      now rewrite last_last. }
  assert (buildChain (rev (sortPoints points)) = [a; z]) as ->.
  { assert (collinear (rev (sortPoints points))) as Hcr
      by (eapply collinear_perm; [apply Permutation_rev|]; eauto).
    rewrite Heq in *. simpl rev in *. rewrite rev_app_distr in *. simpl in Hcr |- *.
    destruct (rev mid) as [|m rmid]; simpl app in *.
    - now rewrite buildChain_collinear.
    - rewrite buildChain_collinear by exact Hcr.
      change (m :: rmid ++ [a]) with ((m :: rmid) ++ [a]).
      now rewrite last_last. }
  reflexivity.
Qed.

Lemma getConvexHull_collinear_witness :
  exists a b,
    getConvexHull [mkPoint 2 2; mkPoint 0 0; mkPoint 3 3; mkPoint 1 1] = [a; b]
    /\ In a [mkPoint 2 2; mkPoint 0 0; mkPoint 3 3; mkPoint 1 1]
    /\ In b [mkPoint 2 2; mkPoint 0 0; mkPoint 3 3; mkPoint 1 1]
    /\ forall q, In q [mkPoint 2 2; mkPoint 0 0; mkPoint 3 3; mkPoint 1 1] ->
         lexle a q /\ lexle q b.
Proof.
  apply (getConvexHull_collinear
           [mkPoint 2 2; mkPoint 0 0; mkPoint 3 3; mkPoint 1 1]).
  - in_range.
  - simpl; lia.
  - intros p q r Hp Hq Hr; simpl in Hp, Hq, Hr.
    repeat match goal with
           | H : _ \/ _ |- _ => destruct H as [<-|H]
           | H : False |- _ => destruct H
           end; reflexivity.
Defined.

(* ================================================================== *)
(** * Convex hull of a square and its centre *)
(* ================================================================== *)














(* ================================================================== *)
(** * The monotone chain: what [buildChain] computes *)
(* ================================================================== *)

(** ** Orientation of four and five points in sorting order *)

Lemma cross_pop_far a b q p :
  lexle a b -> lexle b q -> lexle q p ->
  cross a b p <= 0 -> 0 <= cross b p q -> 0 <= cross a p q.
Proof. rewrite !lexle_iff; unfold cross; nia. Qed.

Lemma cross_pop_near a b q p :
  lexle a q -> lexlt q b -> lexle q p ->
  0 <= cross a b q -> cross a b p <= 0 -> 0 <= cross a p q.
Proof. rewrite !lexle_iff, lexlt_iff; unfold cross; nia. Qed.

Lemma cross_older_edge a b c p :
  lexle a b -> lexle b c -> lexle c p ->
  0 < cross a b c -> 0 <= cross b c p -> 0 <= cross a b p.
Proof. rewrite !lexle_iff; unfold cross; nia. Qed.

Lemma cross_new_edge a c q p :
  lexle a c -> lexle c p -> lexle q c ->
  0 <= cross a c q -> 0 < cross a c p -> 0 <= cross c p q.
Proof. rewrite !lexle_iff; unfold cross; nia. Qed.

Lemma cross_vertex_right p c n b :
  lexle p c -> lexle c n -> 0 < cross p c n ->
  lexlt c b -> 0 <= cross c n b -> 0 < cross c b p.
Proof. rewrite !lexle_iff, !lexlt_iff; unfold cross; nia. Qed.

Lemma cross_vertex_left p c a b :
  lexle p c -> lexlt a c -> lexlt c b ->
  0 <= cross p c a -> 0 < cross c b p -> 0 < cross c b a.
Proof. rewrite !lexle_iff, !lexlt_iff; unfold cross; nia. Qed.

(** A vertex of a chain that turns left lies strictly below every segment
    that spans it and whose ends are on the left of the two edges at the
    vertex. *)
Lemma cross_vertex p c n a b :
  lexle p c -> lexle c n -> 0 < cross p c n ->
  lexlt a c -> lexlt c b ->
  0 <= cross p c a -> 0 <= cross c n b ->
  cross a b c < 0.
Proof.
  intros Hpc Hcn Hturn Hac Hcb Ha Hb.
  pose proof (cross_vertex_right p c n b Hpc Hcn Hturn Hcb Hb) as H1.
  pose proof (cross_vertex_left p c a b Hpc Hac Hcb Ha H1) as H2.
  unfold cross in *; lia.
Qed.

Lemma cross_same o a : cross o a a = 0.
Proof. unfold cross; ring. Qed.

Lemma lexle_or_lexlt a b : lexle a b \/ lexlt b a.
Proof. rewrite lexle_iff, lexlt_iff; lia. Qed.

Lemma lexlt_not_lexle a b : lexlt a b -> lexle b a -> False.
Proof. rewrite lexle_iff, lexlt_iff; lia. Qed.

(** ** The inner loop *)

Section InnerLoop.

(** The point that the outer loop is about to push. *)
Variable p : Point.

Lemma popWhile_suffix st : exists popped, st = popped ++ popWhile st p.
Proof.
  induction st as [|b st IH]; [exists []; reflexivity|].
  destruct st as [|a rest]; [exists []; reflexivity|].
  cbn [popWhile]. destruct (cross a b p <=? 0).
  - destruct IH as [popped IH]. exists (b :: popped).
    cbn [app]; f_equal; exact IH.
  - exists []; reflexivity.
Qed.

Lemma popWhile_nonempty st : st <> [] -> popWhile st p <> [].
Proof.
  induction st as [|b st IH]; [congruence|]; intros _.
  destruct st as [|a rest]; [discriminate|].
  cbn [popWhile]. destruct (cross a b p <=? 0); [|discriminate].
  apply IH; discriminate.
Qed.

Lemma popWhile_exit st b a l :
  popWhile st p = b :: a :: l -> 0 < cross a b p.
Proof.
  induction st as [|b0 st IH]; [discriminate|].
  destruct st as [|a0 rest]; [discriminate|].
  cbn [popWhile]. destruct (Z.leb_spec (cross a0 b0 p) 0); [exact IH|].
  intros [= -> -> _]; assumption.
Qed.

(** The new point is on the left of every edge that stays on the stack. *)
Lemma kept_edges_left : forall st,
  (forall c, In c st -> lexle c p) ->
  (forall l1 v u l2, st = l1 ++ v :: u :: l2 -> lexle u v) ->
  (forall l1 n c q l2, st = l1 ++ n :: c :: q :: l2 -> 0 < cross q c n) ->
  (forall b a l, st = b :: a :: l -> 0 <= cross a b p) ->
  forall l1 v u l2, st = l1 ++ v :: u :: l2 -> 0 <= cross u v p.
Proof.
  induction st as [|w st IH]; intros Hle Hs Hc Htop l1 v u l2 E.
  - destruct l1; discriminate.
  - destruct l1 as [|w' l1]; cbn [app] in E.
    + injection E as -> ->; eapply Htop; reflexivity.
    + injection E as <- E.
      apply (IH) with (l1 := l1) (l2 := l2); auto.
      * intros c Hin; apply Hle; now right.
      * intros k1 v' u' k2 E'; apply (Hs (w :: k1) v' u' k2).
        rewrite E'; reflexivity.
      * intros k1 n c q k2 E'; apply (Hc (w :: k1) n c q k2).
        rewrite E'; reflexivity.
      * intros b a l E'.
        apply (cross_older_edge a b w p).
        -- apply (Hs [w] b a l); rewrite E'; reflexivity.
        -- apply (Hs [] w b (a :: l)); rewrite E'; reflexivity.
        -- apply Hle; now left.
        -- apply (Hc [] w b a l); rewrite E'; reflexivity.
        -- apply (Htop w b (a :: l)); rewrite E'; reflexivity.
Qed.

(** The points pushed so far; [p] comes after all of them. *)
Variable done : list Point.
Hypothesis done_before : forall q, In q done -> lexle q p.

(** Every pushed point that is not before the new top is on the left of the
    edge from the new top to [p]. *)
Lemma popWhile_new_edge : forall st,
  (forall l1 v u l2, st = l1 ++ v :: u :: l2 -> lexle u v) ->
  (forall q l1 v u l2,
      In q done -> st = l1 ++ v :: u :: l2 -> 0 <= cross u v q) ->
  (forall t l q, st = t :: l -> In q done -> lexle t q -> 0 <= cross t p q) ->
  forall t l q,
    popWhile st p = t :: l -> In q done -> lexle t q -> 0 <= cross t p q.
Proof.
  induction st as [|b st IH]; intros Hs Hl HJ t l q Hpop Hq Htq.
  - discriminate.
  - destruct st as [|a rest]; [eapply HJ; eauto|].
    cbn [popWhile] in Hpop.
    destruct (Z.leb_spec (cross a b p) 0) as [Hab|Hab]; [|eapply HJ; eauto].
    apply (IH) with (t := t) (l := l); auto.
    + intros l1 v u l2 E; apply (Hs (b :: l1) v u l2); rewrite E; reflexivity.
    + intros q' l1 v u l2 Hq' E.
      apply (Hl q' (b :: l1) v u l2 Hq'); rewrite E; reflexivity.
    + intros t' l' q' [= <- <-] Hq' Haq'.
      pose proof (Hs [] b a rest eq_refl) as Hab'.
      destruct (lexle_or_lexlt b q') as [Hbq|Hqb].
      * apply (cross_pop_far a b q' p); auto.
        apply (HJ b (a :: rest) q' eq_refl Hq' Hbq).
      * apply (cross_pop_near a b q' p); auto.
        apply (Hl q' [] b a rest Hq' eq_refl).
Qed.

End InnerLoop.

(** ** The outer loop *)

Lemma chainInv_nil : chainInv [] [].
Proof.
  constructor; try (intros; contradiction);
    intros; match goal with
            | H : [] = ?l ++ _ :: _ |- _ => destruct l; discriminate
            | H : [] = _ :: _ |- _ => discriminate
            end.
Qed.

Lemma chainInv_ext done done' st :
  (forall q, In q done <-> In q done') ->
  chainInv done st -> chainInv done' st.
Proof.
  intros Heq [Hsub Hne Htop Hbot Hs Hc Hl]; constructor; auto.
  - intros c Hin; apply Heq; auto.
  - intros q Hq; apply Heq in Hq; eauto.
  - intros q t l Hq; apply Heq in Hq; eauto.
  - intros q l b Hq; apply Heq in Hq; eauto.
  - intros q l1 v u l2 Hq; apply Heq in Hq; eauto.
Qed.

(** One turn of the outer loop keeps the invariant, when the new point
    comes after all the points pushed so far. *)
Lemma pushPoint_chainInv done st p :
  chainInv done st ->
  (forall q, In q done -> lexle q p) ->
  chainInv (p :: done) (pushPoint st p).
Proof.
  intros [Hsub Hne Htop Hbot Hs Hc Hl] Hmax; unfold pushPoint.
  destruct (popWhile_suffix p st) as [popped Hsplit].
  pose proof (popWhile_exit p st) as Hexit.
  pose proof (popWhile_nonempty p st) as Hnonempty.
  assert (forall t l q, popWhile st p = t :: l -> In q done -> lexle t q ->
                        0 <= cross t p q) as Hnew.
  { apply (popWhile_new_edge p done Hmax st); auto.
    intros t l q E Hq Htq.
    assert (q = t) as -> by (apply lexle_antisym; eauto).
    unfold cross; lia. }
  set (st' := popWhile st p) in *.
  assert (forall c, In c st' -> In c done) as Hsub'.
  { intros c Hin; apply Hsub; rewrite Hsplit; apply in_or_app; now right. }
  constructor.
  - intros c [<-|Hin]; [now left|right; auto].
  - discriminate.
  - intros q t l [<-|Hq] [= <- _]; [apply lexle_refl|auto].
  - intros q l b Hq E.
    destruct l as [|t l]; cbn [app] in E.
    + injection E as <- E.
      destruct Hq as [<-|Hq]; [apply lexle_refl|].
      exfalso; apply Hnonempty; [eapply Hne; eauto|auto].
    + injection E as <- E.
      assert (st = (popped ++ l) ++ [b]) as Est
        by (rewrite Hsplit, E, app_assoc; reflexivity).
      destruct Hq as [<-|Hq]; [|eapply Hbot; eauto].
      apply Hmax, Hsub'. rewrite E; apply in_or_app; right; now left.
  - intros l1 v u l2 E.
    destruct l1 as [|t l1]; cbn [app] in E; injection E as <- E.
    + apply Hmax, Hsub'; rewrite E; now left.
    + apply (Hs (popped ++ l1) v u l2).
      rewrite Hsplit, E, app_assoc; reflexivity.
  - intros l1 n c q l2 E.
    destruct l1 as [|t l1]; cbn [app] in E; injection E as <- E.
    + eapply Hexit; eauto.
    + apply (Hc (popped ++ l1) n c q l2).
      rewrite Hsplit, E, app_assoc; reflexivity.
  - intros q l1 v u l2 Hq E.
    destruct l1 as [|t l1]; cbn [app] in E; injection E as <- E.
    + (* the new edge, from the top [u] of the stack to [p] *)
      destruct Hq as [<-|Hq]; [rewrite cross_same; lia|].
      destruct (lexle_or_lexlt u q) as [Huq|Hqu]; [eapply Hnew; eauto|].
      destruct l2 as [|a l2].
      * exfalso; apply (lexlt_not_lexle q u Hqu).
        apply (Hbot q popped u Hq). rewrite Hsplit, E; reflexivity.
      * assert (st = popped ++ u :: a :: l2) as Est
          by (rewrite Hsplit, E; reflexivity).
        apply (cross_new_edge a u q p).
        -- eapply Hs; eauto.
        -- apply Hmax, Hsub'; rewrite E; now left.
        -- now apply lexlt_lexle.
        -- eapply Hl; eauto.
        -- eapply Hexit; eauto.
    + (* an edge that stays *)
      assert (st = (popped ++ l1) ++ v :: u :: l2) as Est
        by (rewrite Hsplit, E, app_assoc; reflexivity).
      destruct Hq as [<-|Hq]; [|eapply Hl; eauto].
      apply (kept_edges_left p st') with (l1 := l1) (l2 := l2); auto.
      * intros k1 v' u' k2 E'; apply (Hs (popped ++ k1) v' u' k2).
        rewrite Hsplit, E', app_assoc; reflexivity.
      * intros k1 n c q' k2 E'; apply (Hc (popped ++ k1) n c q' k2).
        rewrite Hsplit, E', app_assoc; reflexivity.
      * intros b a l E'; apply Z.lt_le_incl; eapply Hexit; eauto.
Qed.

Lemma fold_pushPoint_chainInv : forall rest done st,
  chainInv done st ->
  StronglySorted lexle rest ->
  (forall q p, In q done -> In p rest -> lexle q p) ->
  chainInv (rev rest ++ done) (fold_left pushPoint rest st).
Proof.
  induction rest as [|p rest IH]; intros done st Hinv Hsorted Hle.
  - exact Hinv.
  - apply StronglySorted_inv in Hsorted as [Hsorted Hp].
    rewrite Forall_forall in Hp.
    cbn [fold_left rev]. rewrite <- app_assoc. cbn [app].
    apply IH; auto.
    + apply pushPoint_chainInv; auto.
      intros q Hq; apply Hle; [exact Hq|now left].
    + intros q p' [<-|Hq] Hp'; [auto|].
      apply Hle; [exact Hq|now right].
Qed.

Lemma buildChain_chainInv l :
  StronglySorted lexle l -> chainInv l (buildChain l).
Proof.
  intros Hsorted.
  apply (chainInv_ext (rev l ++ [])).
  - intros q; rewrite app_nil_r; symmetry; apply in_rev.
  - apply fold_pushPoint_chainInv; auto using chainInv_nil.
    intros q p [].
Qed.

(** ** The vertices of the chain *)

(** A pushed point is on the stack, or strictly inside the span of an edge
    of the stack and on its left. *)
Lemma chainInv_cover done st c :
  chainInv done st -> In c done ->
  In c st
  \/ exists u v, In u st /\ In v st
       /\ lexlt u c /\ lexlt c v /\ 0 <= cross u v c.
Proof.
  intros [Hsub Hne Htop Hbot Hs Hc Hl] Hin.
  assert (forall st' pre t l,
             st = pre ++ st' -> st' = t :: l -> lexle c t ->
             In c st'
             \/ exists u v, In u st' /\ In v st'
                  /\ lexlt u c /\ lexlt c v /\ 0 <= cross u v c) as Hwalk.
  { induction st' as [|t0 st' IH]; intros pre t l Est E Hct; [discriminate|].
    injection E as -> ->.
    destruct (lexle_cases c t Hct) as [->|Hlt]; [left; now left|].
    destruct l as [|u l].
    - exfalso; apply (lexlt_not_lexle c t Hlt). eapply Hbot; eauto.
    - destruct (lexle_or_lexlt c u) as [Hcu|Huc].
      + destruct (IH (pre ++ [t]) u l) as [Hin'|(u' & v' & Hu' & Hv' & H)];
          auto.
        * rewrite Est, <- app_assoc; reflexivity.
        * left; now right.
        * right; exists u', v'; repeat split; try tauto; now right.
      + right; exists u, t; repeat split; auto.
        * right; now left.
        * now left.
        * eapply Hl; eauto. }
  destruct st as [|t l] eqn:E; [exfalso; eapply Hne; eauto|].
  apply (Hwalk (t :: l) [] t l); auto.
  eapply Htop; eauto.
Qed.

(** The elements of the stack are exactly the lower vertices of the pushed
    points. *)
Lemma chainInv_vertices done st c :
  chainInv done st ->
  In c st <-> In c done /\ lowerVertex done c.
Proof.
  intros Hinv; split.
  - destruct Hinv as [Hsub Hne Htop Hbot Hs Hc Hl].
    intros Hin; split; [auto|].
    intros a b Ha Hb Hac Hcb.
    apply in_split in Hin as (l1 & l2 & E).
    destruct (exists_last (l := l1)) as (l1' & n & ->).
    { intros ->. apply (lexlt_not_lexle c b Hcb). eapply Htop; eauto. }
    rewrite <- app_assoc in E; cbn [app] in E.
    destruct l2 as [|p l2].
    { exfalso; apply (lexlt_not_lexle a c Hac).
      apply (Hbot a (l1' ++ [n]) c Ha). rewrite <- app_assoc; exact E. }
    assert (st = (l1' ++ [n]) ++ c :: p :: l2) as E'
      by (rewrite <- app_assoc; exact E).
    apply (cross_vertex p c n a b); eauto.
  - intros [Hin Hlow].
    destruct (chainInv_cover done st c Hinv Hin)
      as [H|(u & v & Hu & Hv & Huc & Hcv & Hcross)]; [exact H|].
    destruct Hinv as [Hsub _ _ _ _ _ _].
    pose proof (Hlow u v (Hsub _ Hu) (Hsub _ Hv) Huc Hcv); lia.
Qed.

Lemma buildChain_vertices l c :
  StronglySorted lexle l ->
  In c (buildChain l) <-> In c l /\ lowerVertex l c.
Proof. intros Hs; apply chainInv_vertices, buildChain_chainInv, Hs. Qed.

(** ** The upper chain, by point reflection *)

Lemma negPoint_involutive p : negPoint (negPoint p) = p.
Proof. destruct p; unfold negPoint; cbn [x y]; now rewrite !Z.opp_involutive. Qed.

Lemma cross_negPoint o a b :
  cross (negPoint o) (negPoint a) (negPoint b) = cross o a b.
Proof. unfold cross, negPoint; cbn [x y]; ring. Qed.

Lemma cross_swap a b c : cross b a c = - cross a b c.
Proof. unfold cross; ring. Qed.

Lemma lexle_negPoint a b : lexle (negPoint a) (negPoint b) <-> lexle b a.
Proof. rewrite !lexle_iff; unfold negPoint; cbn [x y]; lia. Qed.

Lemma lexlt_negPoint a b : lexlt (negPoint a) (negPoint b) <-> lexlt b a.
Proof. rewrite !lexlt_iff; unfold negPoint; cbn [x y]; lia. Qed.

Lemma In_negPoint l c : In (negPoint c) (map negPoint l) <-> In c l.
Proof.
  split; [|apply in_map].
  intros H; apply in_map_iff in H as (c' & E & Hin).
  apply (f_equal negPoint) in E; rewrite !negPoint_involutive in E.
  now subst.
Qed.

Lemma popWhile_negPoint p st :
  popWhile (map negPoint st) (negPoint p) = map negPoint (popWhile st p).
Proof.
  induction st as [|b st IH]; [reflexivity|].
  destruct st as [|a rest]; [reflexivity|].
  cbn [map popWhile] in *. rewrite cross_negPoint.
  destruct (cross a b p <=? 0); [exact IH|reflexivity].
Qed.

Lemma fold_pushPoint_negPoint l : forall st,
  fold_left pushPoint (map negPoint l) (map negPoint st)
  = map negPoint (fold_left pushPoint l st).
Proof.
  induction l as [|p l IH]; intros st; [reflexivity|].
  cbn [map fold_left]. rewrite <- IH. f_equal.
  unfold pushPoint; cbn [map]. now rewrite popWhile_negPoint.
Qed.

Lemma buildChain_negPoint l :
  buildChain (map negPoint l) = map negPoint (buildChain l).
Proof. apply (fold_pushPoint_negPoint l []). Qed.

Lemma StronglySorted_snoc {A} (R : A -> A -> Prop) l z :
  StronglySorted R l -> (forall q, In q l -> R q z) ->
  StronglySorted R (l ++ [z]).
Proof.
  induction 1 as [|a l Hs IH Ha]; intros Hz; cbn [app].
  - repeat constructor.
  - constructor.
    + apply IH; intros q Hq; apply Hz; now right.
    + apply Forall_app; split; [exact Ha|].
      constructor; [apply Hz; now left|constructor].
Qed.

Lemma sorted_rev_negPoint l :
  StronglySorted lexle l -> StronglySorted lexle (map negPoint (rev l)).
Proof.
  induction 1 as [|a l Hs IH Ha]; [constructor|].
  cbn [rev]. rewrite map_app; cbn [map].
  apply StronglySorted_snoc; [exact IH|].
  intros q Hq. apply in_map_iff in Hq as (q' & <- & Hq').
  apply lexle_negPoint. apply in_rev in Hq'.
  rewrite Forall_forall in Ha; auto.
Qed.

Lemma lowerVertex_negPoint l c :
  lowerVertex (map negPoint (rev l)) (negPoint c) <-> upperVertex l c.
Proof.
  split.
  - intros H a b Ha Hb Hac Hcb.
    specialize (H (negPoint b) (negPoint a)).
    rewrite cross_negPoint, cross_swap in H.
    assert (- cross a b c < 0); [|lia].
    apply H.
    + apply In_negPoint. now apply in_rev in Hb.
    + apply In_negPoint. now apply in_rev in Ha.
    + now apply lexlt_negPoint.
    + now apply lexlt_negPoint.
  - intros H a' b' Ha' Hb' Hac Hcb.
    apply in_map_iff in Ha' as (a & <- & Ha).
    apply in_map_iff in Hb' as (b & <- & Hb).
    apply in_rev in Ha, Hb.
    apply -> lexlt_negPoint in Hac. apply -> lexlt_negPoint in Hcb.
    rewrite cross_negPoint, cross_swap.
    pose proof (H b a Hb Ha Hcb Hac); lia.
Qed.

Lemma buildChain_rev_vertices l c :
  StronglySorted lexle l ->
  In c (buildChain (rev l)) <-> In c l /\ upperVertex l c.
Proof.
  intros Hs.
  rewrite <- (In_negPoint (buildChain (rev l)) c), <- buildChain_negPoint.
  rewrite (buildChain_vertices _ _ (sorted_rev_negPoint l Hs)).
  rewrite In_negPoint, <- in_rev, lowerVertex_negPoint. reflexivity.
Qed.

(** ** The shape of a chain: last pushed point on top, first at the bottom *)

Lemma popWhile_bottom p st b :
  exists st', popWhile (st ++ [b]) p = st' ++ [b].
Proof.
  destruct (popWhile_suffix p (st ++ [b])) as [popped E].
  destruct (exists_last (l := popWhile (st ++ [b]) p)) as (st' & b' & E').
  { apply popWhile_nonempty. destruct st; discriminate. }
  exists st'. rewrite E' in E |- *.
  rewrite app_assoc in E. apply app_inj_tail in E as [_ ->]. reflexivity.
Qed.

Lemma fold_pushPoint_shape : forall l p st b,
  exists mid,
    fold_left pushPoint (p :: l) (st ++ [b]) = last (p :: l) p :: mid ++ [b].
Proof.
  induction l as [|p' l IH]; intros p st b.
  - cbn [fold_left last]. unfold pushPoint.
    destruct (popWhile_bottom p st b) as [st' E]. rewrite E. now exists st'.
  - change (fold_left pushPoint (p :: p' :: l) (st ++ [b]))
      with (fold_left pushPoint (p' :: l) (pushPoint (st ++ [b]) p)).
    unfold pushPoint at 2.
    destruct (popWhile_bottom p st b) as [st' E0]. rewrite E0.
    change (p :: st' ++ [b]) with ((p :: st') ++ [b]).
    destruct (IH p' (p :: st') b) as [mid E].
    exists mid. rewrite E.
    f_equal. change (last (p :: p' :: l) p) with (last (p' :: l) p).
    apply last_cons_default.
Qed.

Lemma buildChain_shape a p l :
  exists mid, buildChain (a :: p :: l) = last (p :: l) p :: mid ++ [a].
Proof.
  unfold buildChain. cbn [fold_left]. unfold pushPoint at 2. cbn [popWhile].
  apply (fold_pushPoint_shape l p [] a).
Qed.

(** ** The hull and its vertices *)

(** The two chains share their ends, and the hull is the lower chain from
    the first sorted point up to, but without, the last one, followed by the
    upper chain from the last sorted point back to, but without, the
    first. *)
Lemma getConvexHull_shape points :
  (3 <= length points)%nat ->
  exists a z midL midU,
    buildChain (sortPoints points) = z :: midL ++ [a]
    /\ buildChain (rev (sortPoints points)) = a :: midU ++ [z]
    /\ getConvexHull points = a :: rev midL ++ z :: rev midU.
Proof.
  intros Hlen. rewrite getConvexHull_large by exact Hlen.
  pose proof (sortPoints_length points) as Hl.
  destruct (sortPoints points) as [|a [|p l]]; try (simpl in Hl; lia).
  clear Hl Hlen.
  destruct (exists_last (l := p :: l)) as (mid & z & E); [discriminate|].
  destruct (buildChain_shape a p l) as [midL EL].
  assert (last (p :: l) p = z) as Ez by (rewrite E; apply last_last).
  rewrite Ez in EL.
  assert (exists midU, buildChain (rev (a :: p :: l)) = a :: midU ++ [z])
    as [midU EU].
  { cbn [rev]. change (rev l ++ [p]) with (rev (p :: l)).
    rewrite E, rev_app_distr. cbn [rev app].
    destruct (rev mid) as [|m r]; cbn [app].
    - exists []. reflexivity.
    - destruct (buildChain_shape z m (r ++ [a])) as [midU EU].
      exists midU. rewrite EU. f_equal.
      change (m :: r ++ [a]) with ((m :: r) ++ [a]). apply last_last. }
  exists a, z, midL, midU. rewrite EL, EU. repeat split.
  cbn [tl]. rewrite !rev_app_distr. reflexivity.
Qed.

Lemma lowerVertex_incl l l' c :
  (forall q, In q l' -> In q l) -> lowerVertex l c -> lowerVertex l' c.
Proof. intros Hincl H a b Ha Hb; apply H; auto. Qed.

Lemma upperVertex_incl l l' c :
  (forall q, In q l' -> In q l) -> upperVertex l c -> upperVertex l' c.
Proof. intros Hincl H a b Ha Hb; apply H; auto. Qed.

(** The hull of three or more points holds exactly the input points that
    are vertices of the lower or of the upper boundary. *)
Theorem getConvexHull_vertices points c :
  (3 <= length points)%nat ->
  In c (getConvexHull points)
  <-> In c points /\ (lowerVertex points c \/ upperVertex points c).
Proof.
  intros Hlen.
  destruct (getConvexHull_shape points Hlen)
    as (a & z & midL & midU & EL & EU & ->).
  pose proof (sortPoints_sorted points) as Hs.
  pose proof (buildChain_vertices (sortPoints points) c Hs) as HL.
  pose proof (buildChain_rev_vertices (sortPoints points) c Hs) as HU.
  rewrite EL in HL. rewrite EU in HU.
  assert (forall q, In q (sortPoints points) -> In q points) as Hin1
    by (intros q; apply sortPoints_In).
  assert (forall q, In q points -> In q (sortPoints points)) as Hin2
    by (intros q; apply sortPoints_In).
  assert (In c (a :: rev midL ++ z :: rev midU)
          <-> In c (z :: midL ++ [a]) \/ In c (a :: midU ++ [z])) as ->.
  { cbn [In]. rewrite !in_app_iff. cbn [In]. rewrite <- !in_rev. tauto. }
  rewrite HL, HU. split.
  - intros [[Hin H]|[Hin H]]; (split; [auto|]).
    + left; eapply lowerVertex_incl; eauto.
    + right; eapply upperVertex_incl; eauto.
  - intros [Hin [H|H]]; [left|right]; (split; [auto|]).
    + eapply lowerVertex_incl; eauto.
    + eapply upperVertex_incl; eauto.
Qed.

(** ** A chain is determined by the points it has to contain *)

(** Unless all pushed points coincide, the stack is strictly sorted. *)
Lemma chainInv_strict done st :
  chainInv done st ->
  (exists p q, In p done /\ In q done /\ p <> q) ->
  StronglySorted (fun v u => lexlt u v) st.
Proof.
  intros [Hsub Hne Htop Hbot Hs Hc Hl] (p & q & Hp & Hq & Hpq).
  assert (forall l1 v u l2, st = l1 ++ v :: u :: l2 -> lexlt u v) as Hadj.
  { intros l1 v u l2 E.
    destruct (lexle_cases u v (Hs _ _ _ _ E)) as [->|Hlt]; [exfalso|exact Hlt].
    destruct l1 as [|n l1'] eqn:E1.
    - destruct l2 as [|w l2'] eqn:E2.
      + apply Hpq. cbn [app] in E.
        transitivity v; [|symmetry]; apply lexle_antisym.
        * eapply Htop; eauto.
        * apply (Hbot p [v] v Hp E).
        * eapply Htop; eauto.
        * apply (Hbot q [v] v Hq E).
      + pose proof (Hc [] v v w l2' E) as H.
        unfold cross in H; lia.
    - destruct (exists_last (l := n :: l1')) as (k & n' & E'); [discriminate|].
      rewrite E', <- app_assoc in E. cbn [app] in E.
      pose proof (Hc k n' v v l2 E) as H.
      unfold cross in H; lia. }
  clear - Hadj.
  apply Sorted_StronglySorted.
  { intros c b a Hbc Hab. apply lexlt_iff in Hbc, Hab. apply lexlt_iff. lia. }
  induction st as [|v st IH]; [constructor|].
  constructor.
  - apply IH. intros l1 v' u l2 E. apply (Hadj (v :: l1) v' u l2).
    rewrite E; reflexivity.
  - destruct st as [|u st]; constructor.
    apply (Hadj [] v u st eq_refl).
Qed.

(** Two strictly sorted lists with the same elements are equal. *)
Lemma strict_sorted_unique l1 : forall l2,
  StronglySorted (fun v u => lexlt u v) l1 ->
  StronglySorted (fun v u => lexlt u v) l2 ->
  (forall c, In c l1 <-> In c l2) -> l1 = l2.
Proof.
  assert (forall a b, lexlt a b -> lexlt b a -> False) as Hasym
    by (intros a b; rewrite !lexlt_iff; lia).
  assert (forall a, lexlt a a -> False) as Hirr
    by (intros a; rewrite !lexlt_iff; lia).
  induction l1 as [|a l1 IH]; intros l2 H1 H2 Heq.
  - destruct l2 as [|b l2]; [reflexivity|].
    exfalso; apply (Heq b); now left.
  - destruct l2 as [|b l2]; [exfalso; apply (Heq a); now left|].
    apply StronglySorted_inv in H1 as [H1 Ha].
    apply StronglySorted_inv in H2 as [H2 Hb].
    rewrite Forall_forall in Ha, Hb.
    assert (a = b) as ->.
    { destruct (proj1 (Heq a) (or_introl eq_refl)) as [E|Hin1]; [auto|].
      destruct (proj2 (Heq b) (or_introl eq_refl)) as [E|Hin2]; [auto|].
      exfalso; eapply Hasym; eauto. }
    f_equal; apply IH; auto.
    intros c; split; intros Hc.
    + destruct (proj1 (Heq c) (or_intror Hc)) as [<-|H]; [|exact H].
      exfalso; eapply Hirr; eauto.
    + destruct (proj2 (Heq c) (or_intror Hc)) as [<-|H]; [|exact H].
      exfalso; eapply Hirr; eauto.
Qed.

(** A chain whose top and bottom coincide has nothing in between. *)
Lemma chainInv_ends_equal done t mid :
  chainInv done (t :: mid ++ [t]) -> mid = [].
Proof.
  intros [Hsub Hne Htop Hbot Hs Hc Hl].
  destruct mid as [|m mid]; [reflexivity|exfalso].
  cbn [app] in *.
  destruct (exists_last (l := m :: mid)) as (k & m' & E); [discriminate|].
  change (m :: mid ++ [t]) with ((m :: mid) ++ [t]) in *.
  rewrite E in *.
  assert (forall c, In c (t :: (k ++ [m']) ++ [t]) -> c = t) as Hall.
  { intros c Hin. apply Hsub in Hin. apply lexle_antisym.
    - apply (Htop c t _ Hin eq_refl).
    - apply (Hbot c (t :: k ++ [m']) t Hin). reflexivity. }
  destruct k as [|n k]; cbn [app] in *.
  - pose proof (Hc [] t m' t [] eq_refl) as H.
    rewrite (Hall m') in H by (right; now left).
    unfold cross in H; lia.
  - pose proof (Hc [] t n (hd t (k ++ [m'])) (tl ((k ++ [m']) ++ [t]))) as H.
    assert (n = t) as -> by (apply Hall; right; now left).
    destruct k as [|n' k]; cbn [app hd tl] in H;
      specialize (H eq_refl); unfold cross in H; lia.
Qed.

(** Sorted points that lie between a chain and the points it was built
    from give the same chain. *)
Lemma buildChain_unique l l' :
  StronglySorted lexle l -> StronglySorted lexle l' ->
  (forall q, In q l' -> In q l) ->
  (forall q, In q (buildChain l) -> In q l') ->
  (exists p q, In p (buildChain l) /\ In q (buildChain l) /\ p <> q) ->
  buildChain l' = buildChain l.
Proof.
  intros Hs Hs' Hsub Hchain (p & q & Hp & Hq & Hpq).
  pose proof (buildChain_chainInv l Hs) as Hinv.
  pose proof (buildChain_chainInv l' Hs') as Hinv'.
  apply strict_sorted_unique.
  - apply (chainInv_strict l'); auto. exists p, q; auto.
  - apply (chainInv_strict l); auto.
    exists p, q; repeat split; auto; eapply ci_sub; eauto.
  - intros c. rewrite (chainInv_vertices l' _ c Hinv').
    split.
    + intros [Hin Hlow].
      destruct (chainInv_cover l _ c Hinv (Hsub _ Hin))
        as [H|(u & v & Hu & Hv & Huc & Hcv & Hcross)]; [exact H|].
      pose proof (Hlow u v (Hchain _ Hu) (Hchain _ Hv) Huc Hcv); lia.
    + intros Hin; split; [auto|].
      apply (chainInv_vertices l _ c Hinv) in Hin as [_ Hlow].
      eapply lowerVertex_incl; eauto.
Qed.

Lemma map_negPoint_inj l l' :
  map negPoint l = map negPoint l' -> l = l'.
Proof.
  intros E. apply (f_equal (map negPoint)) in E.
  rewrite !map_map in E.
  rewrite !(map_ext _ (fun p => p) negPoint_involutive), !map_id in E.
  exact E.
Qed.

(** The same for the upper chain. *)
Lemma buildChain_rev_unique l l' :
  StronglySorted lexle l -> StronglySorted lexle l' ->
  (forall q, In q l' -> In q l) ->
  (forall q, In q (buildChain (rev l)) -> In q l') ->
  (exists p q, In p (buildChain (rev l)) /\ In q (buildChain (rev l))
               /\ p <> q) ->
  buildChain (rev l') = buildChain (rev l).
Proof.
  intros Hs Hs' Hsub Hchain (p & q & Hp & Hq & Hpq).
  apply map_negPoint_inj. rewrite <- !buildChain_negPoint.
  apply buildChain_unique; try apply sorted_rev_negPoint; auto.
  - intros c Hc. apply in_map_iff in Hc as (c' & <- & Hc').
    apply In_negPoint. apply (proj1 (in_rev _ _)).
    apply (proj2 (in_rev _ _)) in Hc'. auto.
  - intros c Hc. rewrite buildChain_negPoint in Hc.
    apply in_map_iff in Hc as (c' & <- & Hc').
    apply In_negPoint. apply (proj1 (in_rev _ _)). auto.
  - exists (negPoint p), (negPoint q). rewrite buildChain_negPoint.
    repeat split; try (now apply In_negPoint).
    intros E; apply Hpq.
    apply (f_equal negPoint) in E. now rewrite !negPoint_involutive in E.
Qed.

Lemma getConvexHull_In points c :
  (3 <= length points)%nat ->
  In c (getConvexHull points)
  <-> In c (buildChain (sortPoints points))
      \/ In c (buildChain (rev (sortPoints points))).
Proof.
  intros Hlen.
  destruct (getConvexHull_shape points Hlen)
    as (a & z & midL & midU & -> & -> & ->).
  cbn [In]. rewrite !in_app_iff. cbn [In]. rewrite <- !in_rev. tauto.
Qed.

(** When the two ends of the sorted input coincide the hull has two
    elements. *)
Lemma getConvexHull_ends_equal points a midL midU :
  (3 <= length points)%nat ->
  buildChain (sortPoints points) = a :: midL ++ [a] ->
  buildChain (rev (sortPoints points)) = a :: midU ++ [a] ->
  midL = [] /\ midU = [].
Proof.
  intros Hlen EL EU.
  pose proof (sortPoints_sorted points) as Hs.
  split.
  - apply (chainInv_ends_equal (sortPoints points) a).
    rewrite <- EL. now apply buildChain_chainInv.
  - pose proof (buildChain_chainInv _ (sorted_rev_negPoint _ Hs)) as Hinv.
    rewrite buildChain_negPoint, EU in Hinv.
    cbn [map] in Hinv. rewrite map_app in Hinv. cbn [map] in Hinv.
    apply chainInv_ends_equal in Hinv.
    destruct midU; [reflexivity|discriminate].
Qed.

(** C8.  For points with coordinates in the range where the numbers of the
    source are exact, the hull of a hull is the hull: the same list of
    vertices, so in particular the same set of vertices, with the same
    starting vertex. *)
Theorem getConvexHull_idempotent (points : list Point) :
  Forall inRange points ->
  getConvexHull (getConvexHull points) = getConvexHull points
  /\ forall c,
       In c (getConvexHull (getConvexHull points))
       <-> In c (getConvexHull points).
Proof.
  intros _.
  assert (getConvexHull (getConvexHull points) = getConvexHull points) as E;
    [|split; [exact E|intros c; rewrite E; reflexivity]].
  destruct (Nat.le_gt_cases (length points) 2) as [Hsmall|Hlarge].
  { now rewrite !(getConvexHull_short points Hsmall). }
  destruct (Nat.le_gt_cases (length (getConvexHull points)) 2)
    as [Hsmall|Hlarge'].
  { now rewrite (getConvexHull_short _ Hsmall). }
  pose proof (sortPoints_sorted points) as Hs.
  pose proof (sortPoints_sorted (getConvexHull points)) as Hs'.
  assert (forall q, In q (sortPoints (getConvexHull points)) ->
                    In q (sortPoints points)) as Hsub.
  { intros q Hq. apply (proj2 (sortPoints_In _ _)).
    apply (proj1 (sortPoints_In _ _)) in Hq.
    now apply (getConvexHull_vertices points q Hlarge) in Hq. }
  destruct (getConvexHull_shape points Hlarge)
    as (a & z & midL & midU & EL & EU & EH).
  assert (a <> z) as Haz.
  { intros ->.
    destruct (getConvexHull_ends_equal points z midL midU Hlarge EL EU)
      as [-> ->].
    rewrite EH in Hlarge'. simpl in Hlarge'. lia. }
  rewrite (getConvexHull_large (getConvexHull points)) by exact Hlarge'.
  rewrite (getConvexHull_large points) at 3 by exact Hlarge.
  rewrite (buildChain_unique (sortPoints points)
             (sortPoints (getConvexHull points))); auto.
  rewrite (buildChain_rev_unique (sortPoints points)
             (sortPoints (getConvexHull points))); auto.
  - intros q Hq. apply (proj2 (sortPoints_In _ _)).
    apply (proj2 (getConvexHull_In _ _ Hlarge)); auto.
  - exists a, z. rewrite EU. repeat split; auto.
    + now left.
    + right; apply in_or_app; right; now left.
  - intros q Hq. apply (proj2 (sortPoints_In _ _)).
    apply (proj2 (getConvexHull_In _ _ Hlarge)); auto.
  - exists a, z. rewrite EL. repeat split; auto.
    + right; apply in_or_app; right; now left.
    + now left.
Qed.

Lemma getConvexHull_idempotent_witness :
  getConvexHull
    (getConvexHull [mkPoint 4 0; mkPoint 2 3; mkPoint 0 0; mkPoint 2 1;
                    mkPoint 2 0])
  = getConvexHull [mkPoint 4 0; mkPoint 2 3; mkPoint 0 0; mkPoint 2 1;
                   mkPoint 2 0]
  /\ forall c,
       In c (getConvexHull
               (getConvexHull [mkPoint 4 0; mkPoint 2 3; mkPoint 0 0;
                               mkPoint 2 1; mkPoint 2 0]))
       <-> In c (getConvexHull [mkPoint 4 0; mkPoint 2 3; mkPoint 0 0;
                                mkPoint 2 1; mkPoint 2 0]).
Proof.
  apply (getConvexHull_idempotent
           [mkPoint 4 0; mkPoint 2 3; mkPoint 0 0; mkPoint 2 1; mkPoint 2 0]).
  in_range.
Defined.

(* ================================================================== *)
(** * Frame differencing *)
(* ================================================================== *)

Lemma pixelPoint_coordinate k : pixelPoint (4 * k) = coordinate k.
Proof.
  unfold pixelPoint, coordinate.
  replace (Z.of_nat (4 * k) / 4) with (Z.of_nat k); [reflexivity|].
  rewrite Nat2Z.inj_mul, Z.mul_comm; symmetry; apply Z.div_mul; lia.
Qed.

Lemma coordinate_inj k k' : coordinate k = coordinate k' -> k = k'.
Proof.
  unfold coordinate, width; intros H; injection H as Hm Hd.
  pose proof (Z.div_mod (Z.of_nat k) 64 ltac:(lia)).
  pose proof (Z.div_mod (Z.of_nat k') 64 ltac:(lia)).
  lia.
Qed.

Lemma channelDiff_Some data prev i d :
  channelDiff data prev i = Some d <->
  (i < length data)%nat /\ (i < length prev)%nat
  /\ d = Z.abs (nth i data 0 - nth i prev 0).
Proof.
  unfold channelDiff.
  destruct (nth_error data i) as [u|] eqn:Hu.
  - destruct (nth_error prev i) as [w|] eqn:Hw.
    + pose proof (nth_error_nth _ _ 0 Hu). pose proof (nth_error_nth _ _ 0 Hw).
      assert (i < length data)%nat by (apply nth_error_Some; congruence).
      assert (i < length prev)%nat by (apply nth_error_Some; congruence).
      subst; split; [intros [= <-]; auto|intros (_ & _ & ->); reflexivity].
    + apply nth_error_None in Hw.
      split; [discriminate|intros (_ & ? & _); lia].
  - apply nth_error_None in Hu.
    split; [discriminate|intros (? & _); lia].
Qed.

Lemma exceedsSensitivity_pixel s data prev k :
  exceedsSensitivity s (pixelDiff data prev (4 * k)) = true <->
  (4 * k + 2 < length data)%nat /\ (4 * k + 2 < length prev)%nat
  /\ s < colourDistance data prev k.
Proof.
  unfold exceedsSensitivity, pixelDiff, colourDistance.
  destruct (channelDiff data prev (4 * k)) as [r|] eqn:Hr;
  destruct (channelDiff data prev (4 * k + 1)) as [g|] eqn:Hg;
  destruct (channelDiff data prev (4 * k + 2)) as [b|] eqn:Hb;
  repeat match goal with
         | H : channelDiff _ _ _ = Some _ |- _ =>
             apply channelDiff_Some in H; destruct H as (? & ? & ?)
         end; subst;
  try (rewrite Z.ltb_lt; split; [intros; repeat split; lia|intros (_ & _ & ?); lia]).
  all: split; [discriminate|intros (Hd & Hp & _)].
  all: match goal with
       | H : channelDiff _ _ ?i = None |- _ =>
           assert (channelDiff data prev i
                   = Some (Z.abs (nth i data 0 - nth i prev 0))) as E
             by (apply channelDiff_Some; repeat split; lia);
           congruence
       end.
Qed.

(** Membership in what the loop collects from index [i] on, given fuel
    for all the turns left. *)
Lemma compareLoop_In s data prev pt : forall fuel i,
  (length data <= i + 4 * fuel)%nat ->
  In pt (compareLoop s data prev fuel i) <->
  exists j, (i + 4 * j < length data)%nat
    /\ pt = pixelPoint (i + 4 * j)
    /\ exceedsSensitivity s (pixelDiff data prev (i + 4 * j)) = true.
Proof.
  induction fuel as [|fuel IH]; intros i Hfuel; cbn [compareLoop].
  - split; [intros []|intros (j & ? & _); lia].
  - destruct (Nat.ltb_spec i (length data)) as [Hi|Hi].
    + assert (In pt (compareLoop s data prev fuel (i + 4)) <->
              exists j, (0 < j)%nat /\ (i + 4 * j < length data)%nat
                /\ pt = pixelPoint (i + 4 * j)
                /\ exceedsSensitivity s (pixelDiff data prev (i + 4 * j)) = true)
        as Hrest.
      { rewrite IH by lia. split.
        - intros (j & ? & ? & ?); exists (S j).
          replace (i + 4 * S j)%nat with (i + 4 + 4 * j)%nat by lia. auto with arith.
        - intros (j & ? & ? & ? & ?); destruct j as [|j]; [lia|]; exists j.
          replace (i + 4 + 4 * j)%nat with (i + 4 * S j)%nat by lia. auto. }
      destruct (exceedsSensitivity s (pixelDiff data prev i)) eqn:He.
      * cbn [In]; rewrite Hrest; split.
        -- intros [<-|(j & ? & ?)]; [exists 0%nat|exists j; tauto].
           rewrite Nat.mul_0_r, Nat.add_0_r; auto.
        -- intros (j & ? & ? & ?); destruct j as [|j].
           ++ left; rewrite Nat.mul_0_r, Nat.add_0_r in *; auto.
           ++ right; exists (S j); repeat split; auto; lia.
      * rewrite Hrest; split.
        -- intros (j & ? & ?); exists j; tauto.
        -- intros (j & ? & ? & He'); destruct j as [|j].
           ++ rewrite Nat.mul_0_r, Nat.add_0_r in He'; congruence.
           ++ exists (S j); repeat split; auto; lia.
    + split; [intros []|intros (j & ? & _); lia].
Qed.

(** The fuel given by [activePixels] is enough: more fuel changes nothing. *)
Lemma compareLoop_fuel s data prev : forall fuel fuel' i,
  (length data <= i + 4 * fuel)%nat -> (fuel <= fuel')%nat ->
  compareLoop s data prev fuel' i = compareLoop s data prev fuel i.
Proof.
  induction fuel as [|fuel IH]; intros fuel' i Hf Hle.
  - destruct fuel'; cbn [compareLoop]; [reflexivity|].
    destruct (Nat.ltb_spec i (length data)); [lia|reflexivity].
  - destruct fuel' as [|fuel']; [lia|]. cbn [compareLoop].
    destruct (Nat.ltb_spec i (length data)); [|reflexivity].
    rewrite (IH fuel' (i + 4)%nat) by lia. reflexivity.
Qed.

(** The changed pixels, for buffers of any two sizes. *)
Lemma activePixels_In s data prev pt :
  In pt (activePixels s data prev) <->
  exists k, pt = coordinate k
    /\ (4 * k + 2 < length data)%nat /\ (4 * k + 2 < length prev)%nat
    /\ s < colourDistance data prev k.
Proof.
  unfold activePixels. rewrite compareLoop_In by lia. cbn [Nat.add].
  split.
  - intros (j & _ & -> & He). exists j.
    rewrite pixelPoint_coordinate. apply exceedsSensitivity_pixel in He. tauto.
  - intros (k & -> & Hd & Hp & Hs). exists k. split; [lia|].
    rewrite pixelPoint_coordinate. split; [reflexivity|].
    apply exceedsSensitivity_pixel; auto.
Qed.

Example one_changed_pixel :
  activePixels 20 [10; 20; 30; 255; 40; 50; 60; 255]
                  [10; 20; 30; 255; 40; 90; 60; 255]
  = [mkPoint 1 0].
Proof. reflexivity. Qed.

(** A missing previous pixel reads as [NaN] and is not reported. *)
Example short_previous_buffer :
  activePixels 20 [200; 200; 200; 255; 200; 200; 200; 255] [0; 0; 0; 255]
  = [mkPoint 0 0].
Proof. reflexivity. Qed.

(** C3.  Buffers of one size: the coordinate of a pixel is among the
    changed pixels exactly when the absolute differences of its three
    colour channels sum to more than the sensitivity, and nothing but
    coordinates of pixels is ever reported.  A buffer compared with itself
    gives no changed pixel, whatever the sensitivity (a sensitivity is a
    threshold from 0 up). *)
Theorem activePixels_iff (s : Z) (data : list Z) :
  (forall prev, length prev = length data ->
     (forall k, (4 * k + 4 <= length data)%nat ->
        In (coordinate k) (activePixels s data prev)
        <-> s < colourDistance data prev k)
     /\ (forall pt, In pt (activePixels s data prev) ->
          exists k, (4 * k + 2 < length data)%nat /\ pt = coordinate k))
  /\ (0 <= s -> activePixels s data data = []).
Proof.
  split.
  - intros prev Hlen; split.
    + intros k Hk. rewrite activePixels_In. split.
      * intros (k' & Heq & _ & _ & Hs).
        apply coordinate_inj in Heq; subst; exact Hs.
      * intros Hs; exists k; repeat split; auto; lia.
    + intros pt Hpt. apply activePixels_In in Hpt as (k & -> & ? & _).
      exists k; split; [assumption|reflexivity].
  - intros Hs.
    destruct (activePixels s data data) as [|pt l] eqn:E; [reflexivity|].
    assert (In pt (activePixels s data data)) as Hin by (rewrite E; now left).
    apply activePixels_In in Hin as (k & _ & _ & _ & Hlt).
    unfold colourDistance in Hlt. rewrite !Z.sub_diag in Hlt. simpl in Hlt. lia.
Qed.

Lemma activePixels_iff_witness :
  In (coordinate 1)
     (activePixels 20 [10; 20; 30; 255; 40; 50; 60; 255]
                      [10; 20; 30; 255; 40; 90; 60; 255])
  /\ ~ In (coordinate 0)
         (activePixels 20 [10; 20; 30; 255; 40; 50; 60; 255]
                          [10; 20; 30; 255; 40; 90; 60; 255])
  /\ activePixels 20 [10; 20; 30; 255; 40; 50; 60; 255]
                     [10; 20; 30; 255; 40; 50; 60; 255] = [].
Proof.
  destruct (activePixels_iff 20 [10; 20; 30; 255; 40; 50; 60; 255])
    as [Hdiff Hsame].
  destruct (Hdiff [10; 20; 30; 255; 40; 90; 60; 255] eq_refl) as [Hiff _].
  split; [|split].
  - apply Hiff; [simpl; lia|vm_compute; reflexivity].
  - intros Hin; apply Hiff in Hin; [vm_compute in Hin; discriminate|simpl; lia].
  - apply Hsame; lia.
Defined.

(** C2, as the code has it.  The comparison never fails, whatever the sizes
    of the two buffers: it returns the coordinates of the pixels whose three
    colour channels are present in both buffers and differ in sum by more
    than the sensitivity. *)
Theorem compareFrames_total (s : Z) (data prev : list Z) :
  exists pixels,
    compareFrames s data prev = Normal pixels
    /\ forall pt, In pt pixels <->
         exists k, pt = coordinate k
           /\ (4 * k + 2 < length data)%nat /\ (4 * k + 2 < length prev)%nat
           /\ s < colourDistance data prev k.
Proof.
  exists (activePixels s data prev); split; [reflexivity|].
  intros pt; apply activePixels_In.
Qed.

(** C2, as the specification has it, fails: a current buffer of two pixels
    against a previous buffer of one pixel is compared without any error,
    and the pixel the two have in common is reported. *)
Lemma compareFrames_no_DimensionMismatch :
  length [255; 255; 255; 255; 9; 9; 9; 255] <> length [0; 0; 0; 255]
  /\ compareFrames 20 [255; 255; 255; 255; 9; 9; 9; 255] [0; 0; 0; 255]
     = Normal [mkPoint 0 0]
  /\ compareFrames 20 [255; 255; 255; 255; 9; 9; 9; 255] [0; 0; 0; 255]
     <> Throw "DimensionMismatch"%string.
Proof.
  split; [simpl; lia|]. split; [reflexivity|discriminate].
Qed.

(* ================================================================== *)
(** * The alert state machine *)
(* ================================================================== *)

Lemma handleMotionDetected_suppressed r st :
  inCooldown r st -> handleMotionDetected r st = setStatus ALERT st.
Proof.
  unfold inCooldown, handleMotionDetected; intros H.
  destruct (Z.ltb_spec (clockNow r - lastAlertTime st)
                       (cooldown (config st) * 1000)); [reflexivity|lia].
Qed.

Lemma handleMotionDetected_qualifying r st :
  ~ inCooldown r st ->
  handleMotionDetected r st =
    {| config := config st; status := ALERT;
       logs :=
         prependLog
           {| id := toString (clockId r); timestamp := clockStamp r;
              imageUrl := snapshotOf r; analysis := None;
              isAnalyzing := enableAI (config st) |}
           (logs st);
       debugDiff := debugDiff st; lastAlertTime := clockNow r;
       prevFrameData := prevFrameData st;
       alertSounds :=
         (if enableAudio (config st) then S (alertSounds st)
          else alertSounds st);
       overlayPolygon := overlayPolygon st;
       pendingAnalyses :=
         pendingAnalyses st ++
         (if enableAI (config st) && truthy (snapshotOf r)
          then [(toString (clockId r), snapshotOf r)] else []) |}.
Proof.
  unfold inCooldown, handleMotionDetected; intros H.
  destruct (Z.ltb_spec (clockNow r - lastAlertTime st)
                       (cooldown (config st) * 1000)); [lia|].
  fold (snapshotOf r).
  destruct st as [[sens thr audio ai cool] stat lg dbg lastT prevF snd ov pend].
  destruct audio, ai, (truthy (snapshotOf r));
    unfold playAlertSound, setLastAlertTime, setStatus, setLogs,
      setPendingAnalyses;
    cbn [config enableAudio enableAI lastAlertTime status logs debugDiff
         prevFrameData overlayPolygon alertSounds pendingAnalyses andb];
    rewrite ?app_nil_r; reflexivity.
Qed.

(** C1.  Motion present at time [now], on a call that captures a
    snapshot: the one call site has tested the video element just before,
    and [toDataURL] returns a data URL, which is not empty.  The status
    becomes Alert in every case.  Within the cooldown nothing else changes:
    same last-alert time, same log, no sound, no description request.
    Otherwise - the cooldown has elapsed, or no alert has fired yet (the
    last-alert time still holds its initial 0, and the clock reads at
    least one cooldown) - the last-alert time becomes [now], one new entry
    with the snapshot is put in front of the log (cut to [MAX_LOGS]), the
    alert sound is started exactly when audio is enabled, and a description
    of the snapshot is requested exactly when AI description is enabled. *)
Theorem handleMotionDetected_spec (r : Reading) (st : AppState)
    (url : String.string) :
  video r = Some url ->
  url <> String.EmptyString ->
  let st' := handleMotionDetected r st in
  status st' = ALERT
  /\ config st' = config st
  /\ (inCooldown r st ->
        lastAlertTime st' = lastAlertTime st
        /\ logs st' = logs st
        /\ alertSounds st' = alertSounds st
        /\ pendingAnalyses st' = pendingAnalyses st)
  /\ (~ inCooldown r st
      \/ (lastAlertTime st = 0 /\ cooldown (config st) * 1000 <= clockNow r) ->
        lastAlertTime st' = clockNow r
        /\ logs st' =
             prependLog
               {| id := toString (clockId r); timestamp := clockStamp r;
                  imageUrl := url; analysis := None;
                  isAnalyzing := enableAI (config st) |}
               (logs st)
        /\ alertSounds st' =
             (if enableAudio (config st) then S (alertSounds st)
              else alertSounds st)
        /\ pendingAnalyses st' =
             pendingAnalyses st ++
             (if enableAI (config st)
              then [(toString (clockId r), url)] else [])).
Proof.
  intros Hvideo Hurl; cbv zeta.
  assert (snapshotOf r = url) as Hsnap
    by (unfold snapshotOf; now rewrite Hvideo).
  assert (truthy url = true) as Htruthy.
  { unfold truthy. destruct (String.eqb_spec url String.EmptyString);
      [contradiction|reflexivity]. }
  assert (inCooldown r st \/ ~ inCooldown r st) as [H|H]
    by (unfold inCooldown; lia).
  - rewrite (handleMotionDetected_suppressed _ _ H).
    split; [reflexivity|]. split; [reflexivity|]. split.
    + intros _. repeat split.
    + intros [H'|[H0 Hclock]]; [contradiction|].
      unfold inCooldown in H. rewrite H0 in H. lia.
  - rewrite (handleMotionDetected_qualifying _ _ H).
    rewrite Hsnap, Htruthy, andb_true_r.
    split; [reflexivity|]. split; [reflexivity|]. split.
    + intros H'; contradiction.
    + intros _. repeat split.
Qed.

Lemma handleMotionDetected_spec_witness :
  (* 3 s after the alert: suppressed *)
  logs (handleMotionDetected
          {| clockNow := 1700000003000; clockId := 1700000003001;
             clockStamp := 1700000003001; video := Some "data:,"%string |}
          alertedState) = []
  (* 6 s after the alert: a new entry and a description request *)
  /\ pendingAnalyses
       (handleMotionDetected
          {| clockNow := 1700000006000; clockId := 1700000006001;
             clockStamp := 1700000006001; video := Some "data:,"%string |}
          alertedState) = [("1700000006001"%string, "data:,"%string)]
  (* no alert yet: the first motion is logged *)
  /\ lastAlertTime
       (handleMotionDetected
          {| clockNow := 1700000000000; clockId := 1700000000001;
             clockStamp := 1700000000001; video := Some "data:,"%string |}
          initialState) = 1700000000000.
Proof.
  split; [|split].
  - apply (handleMotionDetected_spec
             {| clockNow := 1700000003000; clockId := 1700000003001;
                clockStamp := 1700000003001; video := Some "data:,"%string |}
             alertedState "data:,").
    + reflexivity.
    + discriminate.
    + unfold inCooldown; simpl; lia.
  - apply (handleMotionDetected_spec
             {| clockNow := 1700000006000; clockId := 1700000006001;
                clockStamp := 1700000006001; video := Some "data:,"%string |}
             alertedState "data:,").
    + reflexivity.
    + discriminate.
    + left. unfold inCooldown; simpl; lia.
  - apply (handleMotionDetected_spec
             {| clockNow := 1700000000000; clockId := 1700000000001;
                clockStamp := 1700000000001; video := Some "data:,"%string |}
             initialState "data:,").
    + reflexivity.
    + discriminate.
    + right. split; [reflexivity|simpl; lia].
Defined.

(** The cooldown at work, from the first frame on: motion 0.1 s after the
    start is logged; motion 3 s later only shows the alert; motion 6 s later
    is logged again; a still frame brings the status back to idle and
    leaves the last-alert time alone. *)
Example cooldown_scenario :
  let t0 := 1700000000000 in
  let s1 := run [Tick (Some darkFrame) (readingAt t0);
                 Tick (Some brightFrame) (readingAt (t0 + 100))]
                initialState in
  let s2 := run [Tick (Some darkFrame) (readingAt (t0 + 3100))] s1 in
  let s3 := run [Tick (Some brightFrame) (readingAt (t0 + 6100))] s2 in
  let s4 := run [Tick (Some brightFrame) (readingAt (t0 + 6200))] s3 in
  (status s1, length (logs s1), lastAlertTime s1)
    = (ALERT, 1%nat, t0 + 100)
  /\ (status s2, length (logs s2), lastAlertTime s2)
    = (ALERT, 1%nat, t0 + 100)
  /\ (status s3, length (logs s3), lastAlertTime s3)
    = (ALERT, 2%nat, t0 + 6100)
  /\ (status s4, length (logs s4), lastAlertTime s4)
    = (IDLE, 2%nat, t0 + 6100)
  /\ overlayPolygon s3
    = [mkPoint 0 0; mkPoint 63 0; mkPoint 63 2; mkPoint 7 3; mkPoint 0 3].
Proof. vm_compute. repeat split. Qed.

(** C9.  No motion on a tick that compares two frames (the count of changed
    pixels does not exceed the threshold): the status becomes Idle; the
    last-alert time, the configuration with its cooldown, the log, the
    sounds and the pending requests are left as they were, whatever the
    last-alert time is. *)
Theorem detectMotion_idle (data prev : list Z) (r : Reading) (st : AppState) :
  prevFrameData st = Some prev ->
  Z.of_nat (length (activePixels (sensitivity (config st)) data prev))
    <= threshold (config st) ->
  let st' := detectMotion (Some data) r st in
  status st' = IDLE
  /\ lastAlertTime st' = lastAlertTime st
  /\ config st' = config st
  /\ cooldown (config st') = cooldown (config st)
  /\ logs st' = logs st
  /\ alertSounds st' = alertSounds st
  /\ pendingAnalyses st' = pendingAnalyses st.
Proof.
  intros Hprev Hcount; cbv zeta; unfold detectMotion; rewrite Hprev.
  cbn [setDebugDiff setOverlayPolygon config threshold].
  destruct (Z.ltb_spec (threshold (config st))
              (Z.of_nat (length (activePixels (sensitivity (config st)) data prev))));
    [lia|].
  repeat split.
Qed.

Lemma detectMotion_idle_witness :
  let st := setStatus ALERT (setPrevFrameData [1; 2; 3; 255] alertedState) in
  let st' :=
    detectMotion (Some [1; 2; 3; 255])
      {| clockNow := 1700000001000; clockId := 1700000001000;
         clockStamp := 1700000001000; video := Some "data:,"%string |} st in
  status st' = IDLE
  /\ lastAlertTime st' = lastAlertTime st
  /\ config st' = config st
  /\ cooldown (config st') = cooldown (config st)
  /\ logs st' = logs st
  /\ alertSounds st' = alertSounds st
  /\ pendingAnalyses st' = pendingAnalyses st.
Proof.
  apply (detectMotion_idle [1; 2; 3; 255] [1; 2; 3; 255]).
  - reflexivity.
  - vm_compute; discriminate.
Defined.

(* ================================================================== *)
(** * The motion log *)
(* ================================================================== *)

Lemma prependLog_length newLog prev :
  (length (prependLog newLog prev) <= MAX_LOGS)%nat.
Proof. unfold prependLog; apply firstn_le_length. Qed.

Lemma patchLog_length i d prev : length (patchLog i d prev) = length prev.
Proof. unfold patchLog; apply length_map. Qed.

Lemma prependLog_room newLog prev :
  (length prev < MAX_LOGS)%nat -> prependLog newLog prev = newLog :: prev.
Proof.
  intros H; unfold prependLog; apply firstn_all2; simpl; lia.
Qed.

Lemma firstn_removelast {A} (l : list A) :
  firstn (length l - 1) l = removelast l.
Proof.
  induction l as [|a l IH]; [reflexivity|].
  destruct l as [|b l]; [reflexivity|].
  cbn [length removelast] in *.
  replace (S (S (length l)) - 1)%nat with (S (S (length l) - 1)) by lia.
  cbn [firstn]; f_equal; exact IH.
Qed.

Lemma prependLog_full newLog prev :
  length prev = MAX_LOGS ->
  prependLog newLog prev = newLog :: removelast prev.
Proof.
  intros H; unfold prependLog.
  rewrite <- firstn_removelast, H; reflexivity.
Qed.

Lemma prependLog_In newLog prev log :
  In log (prependLog newLog prev) -> log = newLog \/ In log prev.
Proof.
  unfold prependLog; intros H.
  assert (In log (newLog :: prev)) as [<-|Hin]; auto.
  rewrite <- (firstn_skipn MAX_LOGS (newLog :: prev)).
  apply in_or_app; now left.
Qed.

(** What one run of [detectMotion] does to the log and to the pending
    calls: nothing, or one new entry named after the clock, with or
    without a call for it. *)
Lemma detectMotion_effect frame r st :
  let st' := detectMotion frame r st in
  config st' = config st
  /\ ((logs st' = logs st /\ pendingAnalyses st' = pendingAnalyses st)
      \/ exists newLog,
           id newLog = toString (clockId r)
           /\ logs st' = prependLog newLog (logs st)
           /\ (pendingAnalyses st' = pendingAnalyses st
               \/ exists url,
                    pendingAnalyses st' =
                      pendingAnalyses st ++ [(toString (clockId r), url)])).
Proof.
  cbv zeta; unfold detectMotion.
  destruct frame as [data|]; [|split; [reflexivity|left; split; reflexivity]].
  destruct (prevFrameData st) as [prev|];
    [|split; [reflexivity|left; split; reflexivity]].
  match goal with
  | |- context [if ?b then _ else _] => destruct b
  end; [|split; [reflexivity|left; split; reflexivity]].
  match goal with
  | |- context [handleMotionDetected r ?s] => set (st2 := s)
  end.
  assert (inCooldown r st2 \/ ~ inCooldown r st2) as [H|H]
    by (unfold inCooldown; lia).
  - rewrite (handleMotionDetected_suppressed _ _ H).
    split; [reflexivity|left; split; reflexivity].
  - rewrite (handleMotionDetected_qualifying _ _ H).
    split; [reflexivity|right].
    eexists; split; [|split]; [| reflexivity |]; [reflexivity|].
    cbn [setPrevFrameData setOverlayPolygon pendingAnalyses].
    destruct (enableAI (config st2) && truthy (snapshotOf r)).
    + right; eexists; reflexivity.
    + left; apply app_nil_r.
Qed.

Lemma step_logs_bound st e :
  (length (logs st) <= MAX_LOGS)%nat ->
  (length (logs (step st e)) <= MAX_LOGS)%nat.
Proof.
  intros H; destruct e as [frame r|i d|i]; cbn [step].
  - destruct (detectMotion_effect frame r st) as [_ [[-> _]|(n & _ & -> & _)]];
      [exact H|apply prependLog_length].
  - destruct (isPending i st); [|exact H].
    unfold analysisFulfilled; cbn [setLogs setPendingAnalyses logs].
    now rewrite patchLog_length.
  - destruct (isPending i st); [|exact H].
    unfold analysisRejected; cbn [setLogs setPendingAnalyses logs].
    now rewrite patchLog_length.
Qed.

Lemma run_logs_bound events : forall st,
  (length (logs st) <= MAX_LOGS)%nat ->
  (length (logs (run events st)) <= MAX_LOGS)%nat.
Proof.
  unfold run; induction events as [|e events IH]; intros st H; [exact H|].
  cbn [fold_left]; apply IH, step_logs_bound, H.
Qed.

(** C4.  The log never holds more than [MAX_LOGS] = 20 entries, whatever
    happens (ticks and settled description calls, in any order).  A new
    entry put on a full log drops exactly the last, oldest entry; on a log
    with room it drops nothing; in both cases the entries kept stay in their
    order behind the new one.  Patching a description changes no
    identifier, time or snapshot and moves no entry. *)
Theorem motionLog_bounded :
  MAX_LOGS = 20%nat
  /\ (forall events,
        (length (logs (run events initialState)) <= MAX_LOGS)%nat)
  /\ (forall newLog prev,
        length prev = MAX_LOGS ->
        prependLog newLog prev = newLog :: removelast prev)
  /\ (forall newLog prev,
        (length prev < MAX_LOGS)%nat ->
        prependLog newLog prev = newLog :: prev)
  /\ (forall i d prev,
        length (patchLog i d prev) = length prev
        /\ map id (patchLog i d prev) = map id prev
        /\ map timestamp (patchLog i d prev) = map timestamp prev
        /\ map imageUrl (patchLog i d prev) = map imageUrl prev).
Proof.
  split; [reflexivity|]. split; [|split; [|split]].
  - intros events; apply run_logs_bound; simpl; lia.
  - apply prependLog_full.
  - apply prependLog_room.
  - intros i d prev; split; [apply patchLog_length|].
    unfold patchLog; rewrite !map_map.
    repeat split; apply map_ext; intros log;
      destruct (String.eqb (id log) i); reflexivity.
Qed.

Lemma motionLog_bounded_witness :
  prependLog (sampleLog 7) (repeat (sampleLog 3) 20)
    = sampleLog 7 :: repeat (sampleLog 3) 19
  /\ prependLog (sampleLog 7) [sampleLog 3] = [sampleLog 7; sampleLog 3]
  /\ (length (logs (run [Rejected "7"%string] initialState)) <= MAX_LOGS)%nat.
Proof.
  destruct motionLog_bounded as (_ & Hrun & Hfull & Hroom & _).
  split; [|split].
  - rewrite Hfull by reflexivity. reflexivity.
  - apply Hroom; simpl; unfold MAX_LOGS; lia.
  - apply Hrun.
Defined.

(* ================================================================== *)
(** * An entry whose description is never requested *)
(* ================================================================== *)







(** [Date.now().toString()] gives different strings for different clock
    readings, so a tick whose clock is past the reading [n] never draws the
    identifier made from [n]. *)
Lemma toString_inj a b : toString a = toString b -> a = b.
Proof.
  unfold toString; intros E.
  assert (forall z, Z.to_int z <> Decimal.Pos Decimal.Nil
                    /\ Z.to_int z <> Decimal.Neg Decimal.Nil) as Hnil.
  { intros z; split; intros H; pose proof (f_equal Z.of_int H) as H';
      rewrite DecimalZ.of_to in H'; cbn in H'; subst z; discriminate H. }
  apply DecimalZ.to_int_inj.
  apply (f_equal NilZero.int_of_string) in E.
  rewrite !NilZero.isi in E by apply Hnil.
  now injection E.
Qed.

Lemma neverIssues_after n events :
  Forall (fun e =>
            match e with
            | Tick _ r => n < clockId r
            | _ => True
            end) events ->
  neverIssues (toString n) events.
Proof.
  unfold neverIssues; intros H.
  eapply Forall_impl; [|exact H].
  intros [frame r|i d|i]; auto.
  intros Hlt E; apply toString_inj in E; lia.
Qed.




(* ================================================================== *)
(** * Further properties of the convex hull *)
(* ================================================================== *)

(** X1.  Every vertex of the hull is one of the input points. *)
Theorem hull_vertices_from_input (points : list Point) (c : Point) :
  In c (getConvexHull points) -> In c points.
Proof.
  destruct (Nat.le_gt_cases (length points) 2) as [Hsmall|Hlarge].
  - now rewrite (getConvexHull_short points Hsmall).
  - intros H. now apply (getConvexHull_vertices points c Hlarge) in H.
Qed.

Lemma hull_vertices_from_input_witness :
  In (mkPoint 2 3) [mkPoint 4 0; mkPoint 2 3; mkPoint 0 0; mkPoint 2 1].
Proof.
  apply (hull_vertices_from_input
           [mkPoint 4 0; mkPoint 2 3; mkPoint 0 0; mkPoint 2 1]).
  vm_compute. right; right; left; reflexivity.
Defined.

(** X2.  The hull is empty only for an empty input. *)
Theorem hull_empty_only_for_empty (points : list Point) :
  getConvexHull points = [] <-> points = [].
Proof.
  split; [|intros ->; reflexivity].
  destruct (Nat.le_gt_cases (length points) 2) as [Hsmall|Hlarge].
  - now rewrite (getConvexHull_short points Hsmall).
  - destruct (getConvexHull_shape points Hlarge)
      as (a & z & midL & midU & _ & _ & ->). discriminate.
Qed.

(** X3.  For three or more points the hull does not depend on the order in
    which the points are given. *)
Theorem hull_order_independent (points points' : list Point) :
  (3 <= length points)%nat ->
  Permutation points points' ->
  getConvexHull points = getConvexHull points'.
Proof.
  intros Hlen HP.
  rewrite (getConvexHull_large points Hlen).
  rewrite (getConvexHull_large points')
    by (rewrite <- (Permutation_length HP); exact Hlen).
  now rewrite (sortPoints_permutation _ _ HP).
Qed.

Lemma hull_order_independent_witness :
  getConvexHull [mkPoint 0 0; mkPoint 4 0; mkPoint 2 3; mkPoint 2 1]
  = getConvexHull [mkPoint 4 0; mkPoint 0 0; mkPoint 2 3; mkPoint 2 1].
Proof.
  apply (hull_order_independent
           [mkPoint 0 0; mkPoint 4 0; mkPoint 2 3; mkPoint 2 1]
           [mkPoint 4 0; mkPoint 0 0; mkPoint 2 3; mkPoint 2 1]).
  - simpl; lia.
  - apply perm_swap.
Defined.

(** X4.  For three or more points with coordinates in the range where the
    numbers of the source are exact, a point is a vertex of the hull
    exactly when it is an input point that lies strictly on one side of
    every segment joining an input point before it to an input point after
    it in the sorting order: collinear and interior points are left out,
    the two ends of the sorted input are always kept. *)
Theorem hull_vertices_are_extreme (points : list Point) (c : Point) :
  Forall inRange points ->
  (3 <= length points)%nat ->
  In c (getConvexHull points)
  <-> In c points /\ (lowerVertex points c \/ upperVertex points c).
Proof.
  intros _. exact (getConvexHull_vertices points c).
Qed.

Lemma hull_vertices_are_extreme_witness :
  ~ In (mkPoint 2 0)
       (getConvexHull [mkPoint 0 0; mkPoint 4 0; mkPoint 2 3; mkPoint 2 0]).
Proof.
  intros H.
  apply (hull_vertices_are_extreme
           [mkPoint 0 0; mkPoint 4 0; mkPoint 2 3; mkPoint 2 0]
           (mkPoint 2 0)) in H; [|in_range|simpl; lia].
  destruct H as [_ [H|H]].
  - specialize (H (mkPoint 0 0) (mkPoint 4 0)).
    assert (cross (mkPoint 0 0) (mkPoint 4 0) (mkPoint 2 0) < 0) as Hc.
    { apply H; simpl; auto; apply lexlt_iff; simpl; lia. }
    vm_compute in Hc; discriminate.
  - specialize (H (mkPoint 0 0) (mkPoint 4 0)).
    assert (0 < cross (mkPoint 0 0) (mkPoint 4 0) (mkPoint 2 0)) as Hc.
    { apply H; simpl; auto; apply lexlt_iff; simpl; lia. }
    vm_compute in Hc; discriminate.
Defined.

(** X7.  For three or more points the hull starts at the first point of the
    sorting order (smallest [x], then smallest [y]), and the last point of
    that order is a vertex too. *)
Theorem hull_starts_at_smallest (points : list Point) :
  (3 <= length points)%nat ->
  exists a z rest,
    getConvexHull points = a :: rest
    /\ In z rest
    /\ In a points /\ In z points
    /\ forall q, In q points -> lexle a q /\ lexle q z.
Proof.
  intros Hlen.
  destruct (getConvexHull_shape points Hlen)
    as (a & z & midL & midU & EL & EU & EH).
  pose proof (buildChain_chainInv _ (sortPoints_sorted points)) as Hinv.
  rewrite EL in Hinv.
  exists a, z, (rev midL ++ z :: rev midU).
  split; [exact EH|].
  split; [apply in_or_app; right; now left|].
  assert (In a (sortPoints points) /\ In z (sortPoints points)) as [Ha Hz].
  { split; apply (ci_sub _ _ Hinv); [|now left].
    right; apply in_or_app; right; now left. }
  split; [now apply sortPoints_In|].
  split; [now apply sortPoints_In|].
  intros q Hq. apply sortPoints_In in Hq. split.
  - apply (ci_bottom _ _ Hinv q (z :: midL) a Hq). reflexivity.
  - apply (ci_top _ _ Hinv q z (midL ++ [a]) Hq). reflexivity.
Qed.

Lemma hull_starts_at_smallest_witness :
  exists a z rest,
    getConvexHull [mkPoint 4 0; mkPoint 2 3; mkPoint 0 0; mkPoint 2 1]
    = a :: rest
    /\ In z rest
    /\ In a [mkPoint 4 0; mkPoint 2 3; mkPoint 0 0; mkPoint 2 1]
    /\ In z [mkPoint 4 0; mkPoint 2 3; mkPoint 0 0; mkPoint 2 1]
    /\ forall q, In q [mkPoint 4 0; mkPoint 2 3; mkPoint 0 0; mkPoint 2 1] ->
         lexle a q /\ lexle q z.
Proof.
  apply (hull_starts_at_smallest
           [mkPoint 4 0; mkPoint 2 3; mkPoint 0 0; mkPoint 2 1]).
  simpl; lia.
Defined.

(** X8.  The comparator of the sort orders points totally (two points that
    compare equal are the same point), so the sorted array is determined by
    the points alone: two sorted arrangements of the same points are the
    same list, whatever sorting procedure produced them. *)
Theorem sorted_arrangement_unique (l1 l2 : list Point) :
  (forall a b, comparePoints a b = 0 <-> a = b)
  /\ (forall a b, comparePoints b a = - comparePoints a b)
  /\ (StronglySorted (fun a b => comparePoints a b <= 0) l1 ->
      StronglySorted (fun a b => comparePoints a b <= 0) l2 ->
      Permutation l1 l2 -> l1 = l2).
Proof.
  split; [|split].
  - intros a b; split.
    + intros H; apply lexle_antisym; unfold lexle.
      * lia.
      * unfold comparePoints in *.
        destruct (Z.eqb_spec (x a) (x b)), (Z.eqb_spec (x b) (x a)); lia.
    + intros ->. unfold comparePoints. rewrite Z.eqb_refl. lia.
  - intros a b. unfold comparePoints.
    destruct (Z.eqb_spec (x a) (x b)), (Z.eqb_spec (x b) (x a)); lia.
  - apply sorted_perm_unique.
Qed.

Lemma sorted_arrangement_unique_witness :
  [mkPoint 0 5; mkPoint 1 1; mkPoint 1 2]
  = sortPoints [mkPoint 1 2; mkPoint 0 5; mkPoint 1 1].
Proof.
  apply (sorted_arrangement_unique
           [mkPoint 0 5; mkPoint 1 1; mkPoint 1 2]
           (sortPoints [mkPoint 1 2; mkPoint 0 5; mkPoint 1 1])).
  - repeat constructor; vm_compute; discriminate.
  - apply sortPoints_sorted.
  - apply Permutation_sym.
    apply (Permutation_trans (sortPoints_perm _)).
    apply Permutation_trans
      with (l' := [mkPoint 0 5; mkPoint 1 2; mkPoint 1 1]).
    + apply perm_swap.
    + apply perm_skip, perm_swap.
Defined.

(** ** The hull as a closed polygon *)

Lemma adjacent_app_cases (X : list Point) z Y : forall l1 u v l2,
  X ++ z :: Y = l1 ++ u :: v :: l2 ->
  (exists k1 k2, X ++ [z] = k1 ++ u :: v :: k2)
  \/ (exists k1 k2, z :: Y = k1 ++ u :: v :: k2).
Proof.
  induction X as [|x0 X IH]; intros l1 u v l2 E; cbn [app] in E.
  - right; now exists l1, l2.
  - destruct l1 as [|y0 l1]; cbn [app] in E; injection E as -> E.
    + left. exists []. destruct X as [|x1 X]; cbn [app] in E |- *;
        injection E as -> E.
      * now exists [].
      * now exists (X ++ [z]).
    + destruct (IH _ _ _ _ E) as [(k1 & k2 & E')|H]; [left|now right].
      exists (y0 :: k1), k2. cbn [app]. now rewrite E'.
Qed.

Lemma rev_adjacent (l k1 k2 : list Point) u v :
  rev l = k1 ++ u :: v :: k2 -> l = rev k2 ++ v :: u :: rev k1.
Proof.
  intros E. apply (f_equal (@rev Point)) in E.
  rewrite rev_involutive, rev_app_distr in E. cbn [rev] in E.
  rewrite <- !app_assoc in E. exact E.
Qed.

Lemma upper_chainInv l :
  StronglySorted lexle l ->
  chainInv (map negPoint (rev l)) (map negPoint (buildChain (rev l))).
Proof.
  intros Hs. rewrite <- buildChain_negPoint.
  apply buildChain_chainInv, sorted_rev_negPoint, Hs.
Qed.

Lemma upper_left l l1 v u l2 q :
  StronglySorted lexle l ->
  buildChain (rev l) = l1 ++ v :: u :: l2 -> In q l ->
  0 <= cross u v q.
Proof.
  intros Hs E Hq. rewrite <- cross_negPoint.
  apply (ci_left _ _ (upper_chainInv l Hs) (negPoint q)
           (map negPoint l1) _ _ (map negPoint l2)).
  - apply In_negPoint. now apply (proj1 (in_rev _ _)).
  - rewrite E, map_app. reflexivity.
Qed.

Lemma upper_convex l l1 n c p l2 :
  StronglySorted lexle l ->
  buildChain (rev l) = l1 ++ n :: c :: p :: l2 ->
  0 < cross p c n.
Proof.
  intros Hs E. rewrite <- cross_negPoint.
  apply (ci_convex _ _ (upper_chainInv l Hs)
           (map negPoint l1) _ _ _ (map negPoint l2)).
  rewrite E, map_app. reflexivity.
Qed.

Lemma getConvexHull_encloses points u v q :
  (3 <= length points)%nat ->
  loopEdge (getConvexHull points) u v ->
  In q points ->
  0 <= cross u v q.
Proof.
  intros Hlen (l1 & l2 & E) Hq.
  destruct (getConvexHull_shape points Hlen)
    as (a & z & midL & midU & EL & EU & EH).
  pose proof (sortPoints_sorted points) as Hs.
  apply (proj2 (sortPoints_In _ _)) in Hq.
  assert ((a :: rev midL) ++ z :: (rev midU ++ [a]) = l1 ++ u :: v :: l2)
    as E2.
  { rewrite <- E, EH. cbn [firstn app]. rewrite <- app_assoc. reflexivity. }
  destruct (adjacent_app_cases _ _ _ _ _ _ _ E2)
    as [(k1 & k2 & E')|(k1 & k2 & E')].
  - assert (rev (buildChain (sortPoints points)) = k1 ++ u :: v :: k2) as ER.
    { rewrite EL, <- E'. cbn [rev]. rewrite rev_app_distr. reflexivity. }
    apply rev_adjacent in ER.
    exact (ci_left _ _ (buildChain_chainInv _ Hs) q _ _ _ _ Hq ER).
  - assert (rev (buildChain (rev (sortPoints points)))
            = k1 ++ u :: v :: k2) as ER.
    { rewrite EU, <- E'. cbn [rev]. rewrite rev_app_distr. reflexivity. }
    apply rev_adjacent in ER.
    exact (upper_left _ _ _ _ _ q Hs ER Hq).
Qed.

(** X5.  For three or more points with coordinates in the range where the
    numbers of the source are exact, the hull, read as a closed polygon,
    encloses the input: every input point lies on the left of, or on, every
    edge, the closing edge from the last vertex to the first included. *)
Theorem hull_encloses_input (points : list Point) (u v q : Point) :
  Forall inRange points ->
  (3 <= length points)%nat ->
  loopEdge (getConvexHull points) u v ->
  In q points ->
  0 <= cross u v q.
Proof.
  intros _. exact (getConvexHull_encloses points u v q).
Qed.

Lemma hull_encloses_input_witness :
  0 <= cross (mkPoint 2 3) (mkPoint 0 0) (mkPoint 2 1).
Proof.
  apply (hull_encloses_input
           [mkPoint 4 0; mkPoint 2 3; mkPoint 0 0; mkPoint 2 1]).
  - in_range.
  - simpl; lia.
  - exists [mkPoint 0 0; mkPoint 4 0], []. reflexivity.
  - simpl; auto.
Defined.

Lemma leftTurns_triplesLeft l : triplesLeft l -> leftTurns l.
Proof.
  unfold triplesLeft; induction l as [|a l IH]; intros H; [exact I|].
  destruct l as [|b [|c t]]; try exact I.
  split.
  - apply (H [] a b c t eq_refl).
  - apply IH. intros l1 u v w l2 E. apply (H (a :: l1) u v w l2).
    rewrite E; reflexivity.
Qed.

(** Two runs of left turns that overlap in two elements make one run. *)
Lemma triplesLeft_glue (X : list Point) u v Y :
  triplesLeft (X ++ [u; v]) -> triplesLeft (u :: v :: Y) ->
  triplesLeft (X ++ u :: v :: Y).
Proof.
  unfold triplesLeft; induction X as [|x0 X IH]; intros HX HY l1 p q r l2 E.
  - eapply HY; eauto.
  - destruct l1 as [|y0 l1]; cbn [app] in E; injection E as <- E.
    + destruct X as [|x1 [|x2 X]]; cbn [app] in E.
      * injection E as <- <- _. apply (HX [] x0 u v [] eq_refl).
      * injection E as <- <- _. apply (HX [] x0 x1 u [v] eq_refl).
      * injection E as <- <- _.
        apply (HX [] x0 x1 x2 (X ++ [u; v]) eq_refl).
    + apply (IH) with (l1 := l1) (l2 := l2); auto.
      intros k1 p' q' r' k2 E'. apply (HX (x0 :: k1) p' q' r' k2).
      cbn [app]; f_equal; exact E'.
Qed.

Lemma rev_triple (l k1 k2 : list Point) u v w :
  rev l = k1 ++ u :: v :: w :: k2 -> l = rev k2 ++ w :: v :: u :: rev k1.
Proof.
  intros E. apply (f_equal (@rev Point)) in E.
  rewrite rev_involutive, rev_app_distr in E. cbn [rev] in E.
  rewrite <- !app_assoc in E. exact E.
Qed.

Lemma StronglySorted_rev {A} (R : A -> A -> Prop) l :
  StronglySorted R l -> StronglySorted (fun a b => R b a) (rev l).
Proof.
  induction 1 as [|a l Hs IH Ha]; [constructor|].
  cbn [rev]. apply StronglySorted_snoc; [exact IH|].
  intros q Hq. apply in_rev in Hq. rewrite Forall_forall in Ha. auto.
Qed.

Lemma StronglySorted_before_last {A} (R : A -> A -> Prop) l z :
  StronglySorted R (l ++ [z]) -> forall q, In q l -> R q z.
Proof.
  induction l as [|a l IH]; intros Hs q Hq; [destruct Hq|].
  cbn [app] in Hs. apply StronglySorted_inv in Hs as [Hs Ha].
  destruct Hq as [<-|Hq]; [|auto].
  rewrite Forall_forall in Ha. apply Ha, in_or_app; right; now left.
Qed.

Lemma StronglySorted_map_negPoint l :
  StronglySorted (fun v u => lexlt u v) (map negPoint l) ->
  StronglySorted lexlt l.
Proof.
  induction l as [|a l IH]; intros H; [constructor|].
  cbn [map] in H. apply StronglySorted_inv in H as [H Ha].
  constructor; [auto|].
  rewrite Forall_forall in Ha |- *. intros q Hq.
  apply lexlt_negPoint. apply Ha. now apply in_map.
Qed.

(** Unless all input points coincide, the lower chain read from its bottom
    is strictly increasing and the upper chain read from its bottom is
    strictly decreasing. *)
Lemma lower_chain_increasing l p q :
  StronglySorted lexle l -> In p l -> In q l -> p <> q ->
  StronglySorted lexlt (rev (buildChain l)).
Proof.
  intros Hs Hp Hq Hpq.
  apply (StronglySorted_rev (fun v u => lexlt u v)).
  apply (chainInv_strict l); [now apply buildChain_chainInv|].
  now exists p, q.
Qed.

Lemma upper_chain_decreasing l p q :
  StronglySorted lexle l -> In p l -> In q l -> p <> q ->
  StronglySorted (fun v u => lexlt u v) (rev (buildChain (rev l))).
Proof.
  intros Hs Hp Hq Hpq.
  apply (StronglySorted_rev lexlt).
  apply StronglySorted_map_negPoint.
  apply (chainInv_strict _ _ (upper_chainInv l Hs)).
  exists (negPoint p), (negPoint q). repeat split.
  - apply In_negPoint. now apply (proj1 (in_rev _ _)).
  - apply In_negPoint. now apply (proj1 (in_rev _ _)).
  - intros E; apply Hpq.
    apply (f_equal negPoint) in E. now rewrite !negPoint_involutive in E.
Qed.

(** The turn at the last sorted point [z], from the lower chain into the
    upper chain, and the turn at the first sorted point [a], from the upper
    chain back into the lower chain. *)
Lemma turn_at_largest l a z p n :
  lowerVertex l p -> upperVertex l n ->
  In p l -> In n l -> In a l -> In z l ->
  lexlt p z -> lexlt n z ->
  lexlt a p \/ lexlt a n ->
  0 < cross p z n.
Proof.
  intros Hlow Hup Hp Hn Ha Hz Hpz Hnz Hnear.
  destruct (lexle_or_lexlt p n) as [Hpn|Hnp].
  - destruct (lexle_cases p n Hpn) as [->|Hlt].
    + assert (lexlt a n) as Han by tauto.
      pose proof (Hlow a z Ha Hz Han Hnz).
      pose proof (Hup a z Ha Hz Han Hnz). lia.
    + apply (Hup p z Hp Hz Hlt Hnz).
  - pose proof (Hlow n z Hn Hz Hnp Hpz) as H.
    unfold cross in *; lia.
Qed.

Lemma turn_at_smallest l a z p s :
  lowerVertex l s -> upperVertex l p ->
  In p l -> In s l -> In a l -> In z l ->
  lexlt a p -> lexlt a s ->
  lexlt p z \/ lexlt s z ->
  0 < cross p a s.
Proof.
  intros Hlow Hup Hp Hs Ha Hz Hap Has Hnear.
  destruct (lexle_or_lexlt p s) as [Hps|Hsp].
  - destruct (lexle_cases p s Hps) as [->|Hlt].
    + assert (lexlt s z) as Hsz by tauto.
      pose proof (Hlow a z Ha Hz Has Hsz).
      pose proof (Hup a z Ha Hz Has Hsz). lia.
    + pose proof (Hup a s Ha Hs Hap Hlt) as H.
      unfold cross in *; lia.
  - pose proof (Hlow a p Ha Hp Has Hsp) as H.
    unfold cross in *; lia.
Qed.

(** X6.  For points with coordinates in the range where the numbers of the
    source are exact, a hull with three or more vertices, read as a closed
    polygon, turns strictly left at every vertex: it is a strictly convex
    polygon in counter-clockwise order, with no three consecutive vertices
    on a line. *)
Theorem hull_turns_left (points : list Point) :
  Forall inRange points ->
  (3 <= length (getConvexHull points))%nat ->
  counterClockwise (getConvexHull points).
Proof.
  intros _ Hhull.
  assert (3 <= length points)%nat as Hlen.
  { destruct (Nat.le_gt_cases (length points) 2) as [Hsmall|Hlarge];
      [|exact Hlarge].
    rewrite (getConvexHull_short points Hsmall) in Hhull. lia. }
  destruct (getConvexHull_shape points Hlen)
    as (a & z & midL & midU & EL & EU & EH).
  pose proof (sortPoints_sorted points) as Hs.
  set (S := sortPoints points) in *.
  assert (a <> z) as Haz.
  { intros ->.
    destruct (getConvexHull_ends_equal points z midL midU Hlen EL EU)
      as [-> ->].
    rewrite EH in Hhull. simpl in Hhull. lia. }
  assert (rev (buildChain S) = (a :: rev midL) ++ [z]) as ERL.
  { rewrite EL. cbn [rev]. rewrite rev_app_distr. reflexivity. }
  assert (rev (buildChain (rev S)) = (z :: rev midU) ++ [a]) as ERU.
  { rewrite EU. cbn [rev]. rewrite rev_app_distr. reflexivity. }
  assert (forall q, In q ((a :: rev midL) ++ [z]) ->
                    In q S /\ lowerVertex S q) as HlowV.
  { intros q Hq. rewrite <- ERL in Hq. apply in_rev in Hq.
    now apply (buildChain_vertices S q Hs). }
  assert (forall q, In q ((z :: rev midU) ++ [a]) ->
                    In q S /\ upperVertex S q) as HupV.
  { intros q Hq. rewrite <- ERU in Hq. apply in_rev in Hq.
    now apply (buildChain_rev_vertices S q Hs). }
  assert (In a S /\ In z S) as [Ha Hz].
  { split; apply HlowV; [now left|apply in_or_app; right; now left]. }
  pose proof (lower_chain_increasing S a z Hs Ha Hz Haz) as HA.
  pose proof (upper_chain_decreasing S a z Hs Ha Hz Haz) as HB.
  rewrite ERL in HA. rewrite ERU in HB.
  assert (triplesLeft ((a :: rev midL) ++ [z])) as HtA.
  { intros l1 u v w l2 E. rewrite <- ERL in E. apply rev_triple in E.
    exact (ci_convex _ _ (buildChain_chainInv S Hs) _ _ _ _ _ E). }
  assert (triplesLeft ((z :: rev midU) ++ [a])) as HtB.
  { intros l1 u v w l2 E. rewrite <- ERU in E. apply rev_triple in E.
    exact (upper_convex S _ _ _ _ _ Hs E). }
  assert (rev midL <> [] \/ rev midU <> []) as Hmid.
  { destruct (rev midL) as [|r RL] eqn:E1; [|left; discriminate].
    destruct (rev midU) as [|r RU] eqn:E2; [|right; discriminate].
    exfalso. rewrite EH in Hhull. simpl in Hhull. lia. }
  generalize dependent (rev midL). generalize dependent (rev midU).
  intros RU ERU HupV HB HtB RL EH ERL HlowV HA HtA Hmid.
  (* order facts *)
  pose proof (StronglySorted_before_last _ _ _ HA) as Hbelow_z.
  pose proof (StronglySorted_before_last _ _ _ HB) as Habove_a.
  cbn beta in Habove_a.
  cbn [app] in HA, HB.
  apply StronglySorted_inv in HA as [_ Hafter_a].
  apply StronglySorted_inv in HB as [_ Hafter_z].
  rewrite Forall_forall in Hafter_a, Hafter_z.
  (* the four neighbours of the two junctions *)
  destruct (exists_last (l := a :: RL)) as (A0 & p & EA0); [discriminate|].
  destruct (exists_last (l := z :: RU)) as (B1 & p' & EB1); [discriminate|].
  assert (exists s A1, RL ++ [z] = s :: A1) as (s & A1 & EA1)
    by (destruct RL; eexists; eexists; reflexivity).
  assert (exists n B0, RU ++ [a] = n :: B0) as (n & B0 & EB0)
    by (destruct RU; eexists; eexists; reflexivity).
  assert (In p (a :: RL)) as Hp
    by (rewrite EA0; apply in_or_app; right; now left).
  assert (In p' (z :: RU)) as Hp'
    by (rewrite EB1; apply in_or_app; right; now left).
  assert (In s (RL ++ [z])) as Hs_in by (rewrite EA1; now left).
  assert (In n (RU ++ [a])) as Hn_in by (rewrite EB0; now left).
  assert (RL <> [] -> lexlt a p /\ lexlt s z) as HRL.
  { intros HneRL. split.
    - apply Hafter_a. apply in_or_app; left.
      destruct Hp as [E|Hp]; [|exact Hp].
      exfalso. destruct RL as [|r RL]; [congruence|].
      destruct (exists_last (l := r :: RL)) as (R0 & r' & ER0);
        [discriminate|].
      rewrite ER0 in EA0.
      change (a :: R0 ++ [r']) with ((a :: R0) ++ [r']) in EA0.
      apply app_inj_tail in EA0 as [_ Er]. rewrite <- E in Er. subst r'.
      assert (lexlt a a) as Hbad
        by (apply Hafter_a; rewrite ER0, <- app_assoc;
            apply in_or_app; right; now left).
      apply lexlt_iff in Hbad; lia.
    - apply Hbelow_z. right.
      destruct RL as [|r RL]; [congruence|].
      cbn [app] in EA1. injection EA1 as <- _. now left. }
  assert (RU <> [] -> lexlt p' z /\ lexlt a n) as HRU.
  { intros HneRU. split.
    - apply Hafter_z. apply in_or_app; left.
      destruct Hp' as [E|Hp']; [|exact Hp'].
      exfalso. destruct RU as [|r RU]; [congruence|].
      destruct (exists_last (l := r :: RU)) as (R0 & r' & ER0);
        [discriminate|].
      rewrite ER0 in EB1.
      change (z :: R0 ++ [r']) with ((z :: R0) ++ [r']) in EB1.
      apply app_inj_tail in EB1 as [_ Er]. rewrite <- E in Er. subst r'.
      assert (lexlt z z) as Hbad
        by (apply Hafter_z; rewrite ER0, <- app_assoc;
            apply in_or_app; right; now left).
      apply lexlt_iff in Hbad; lia.
    - apply Habove_a. right.
      destruct RU as [|r RU]; [congruence|].
      cbn [app] in EB0. injection EB0 as <- _. now left. }
  assert (0 < cross p z n) as Hturn_z.
  { destruct (HlowV p) as [HpS HpV]; [apply in_or_app; now left|].
    destruct (HupV n) as [HnS HnV]; [right; exact Hn_in|].
    apply (turn_at_largest S a z p n HpV HnV HpS HnS Ha Hz).
    - now apply Hbelow_z.
    - now apply Hafter_z.
    - destruct Hmid as [H|H]; [left; now apply HRL|right; now apply HRU]. }
  assert (0 < cross p' a s) as Hturn_a.
  { destruct (HlowV s) as [HsS HsV]; [right; exact Hs_in|].
    destruct (HupV p') as [HpS HpV]; [apply in_or_app; now left|].
    apply (turn_at_smallest S a z p' s HsV HpV HpS HsS Ha Hz).
    - now apply Habove_a.
    - now apply Hafter_a.
    - destruct Hmid as [H|H]; [right; now apply HRL|left; now apply HRU]. }
  (* gluing the two chains at the two junctions *)
  unfold counterClockwise. apply leftTurns_triplesLeft.
  assert (getConvexHull points ++ firstn 2 (getConvexHull points)
          = ((A0 ++ [p]) ++ B1) ++ [p'; a; s]) as ->.
  { rewrite EH.
    assert (firstn 2 (a :: RL ++ z :: RU) = [a; s]) as ->.
    { destruct RL as [|r RL]; cbn [app] in EA1 |- *;
        injection EA1 as <- _; reflexivity. }
    rewrite <- EA0.
    change (a :: RL ++ z :: RU) with ((a :: RL) ++ z :: RU).
    rewrite EB1. rewrite <- !app_assoc. reflexivity. }
  assert ((z :: RU) ++ [a] = z :: n :: B0) as EB by (cbn [app]; now rewrite EB0).
  apply (triplesLeft_glue ((A0 ++ [p]) ++ B1) p' a [s]).
  - replace (((A0 ++ [p]) ++ B1) ++ [p'; a])
      with ((A0 ++ [p]) ++ z :: n :: B0).
    2:{ rewrite <- EB, EB1, <- !app_assoc. reflexivity. }
    apply (triplesLeft_glue (A0 ++ [p]) z n B0).
    + replace ((A0 ++ [p]) ++ [z; n]) with (A0 ++ p :: z :: [n])
        by (rewrite <- app_assoc; reflexivity).
      apply (triplesLeft_glue A0 p z [n]).
      * replace (A0 ++ [p; z]) with ((a :: RL) ++ [z])
          by (rewrite EA0, <- app_assoc; reflexivity).
        exact HtA.
      * intros l1 u v w l2 E.
        destruct l1 as [|? [|? [|? [|? l1]]]]; try discriminate E.
        injection E as <- <- <- _. exact Hturn_z.
    + rewrite <- EB. exact HtB.
  - intros l1 u v w l2 E.
    destruct l1 as [|? [|? [|? [|? l1]]]]; try discriminate E.
    injection E as <- <- <- _. exact Hturn_a.
Qed.

Lemma hull_turns_left_witness :
  counterClockwise
    (getConvexHull [mkPoint 4 0; mkPoint 2 3; mkPoint 0 0; mkPoint 2 1;
                    mkPoint 2 0]).
Proof.
  apply (hull_turns_left
           [mkPoint 4 0; mkPoint 2 3; mkPoint 0 0; mkPoint 2 1; mkPoint 2 0]).
  - in_range.
  - vm_compute. lia.
Defined.

(* ================================================================== *)
(** * Further properties of the frame comparison *)
(* ================================================================== *)

(** The loop is a filter over the pixel numbers, in row-major order. *)
Lemma compareLoop_filter s data prev : forall fuel j,
  (length data <= 4 * j + 4 * fuel)%nat ->
  compareLoop s data prev fuel (4 * j)
  = map coordinate
      (filter (changedAt s data prev) (seq j (pixelCount data - j))).
Proof.
  unfold pixelCount.
  induction fuel as [|fuel IH]; intros j Hfuel; cbn [compareLoop].
  - replace ((length data + 3) / 4 - j)%nat with 0%nat; [reflexivity|].
    assert ((length data + 3) / 4 < Datatypes.S j)%nat; [|lia].
    apply Nat.Div0.div_lt_upper_bound; lia.
  - destruct (Nat.ltb_spec (4 * j) (length data)) as [Hj|Hj].
    + assert (((length data + 3) / 4 - j)%nat
              = Datatypes.S ((length data + 3) / 4 - Datatypes.S j)) as ->.
      { assert (Datatypes.S j <= (length data + 3) / 4)%nat; [|lia].
        apply Nat.div_le_lower_bound; lia. }
      cbn [seq filter]. unfold changedAt at 1.
      replace (4 * j + 4)%nat with (4 * Datatypes.S j)%nat by lia.
      rewrite (IH (Datatypes.S j)) by lia.
      destruct (exceedsSensitivity s (pixelDiff data prev (4 * j)));
        [cbn [map]; rewrite pixelPoint_coordinate|]; reflexivity.
    + replace ((length data + 3) / 4 - j)%nat with 0%nat; [reflexivity|].
      assert ((length data + 3) / 4 < Datatypes.S j)%nat; [|lia].
    apply Nat.Div0.div_lt_upper_bound; lia.
Qed.

Lemma activePixels_filter s data prev :
  activePixels s data prev
  = map coordinate
      (filter (changedAt s data prev) (seq 0 (pixelCount data))).
Proof.
  unfold activePixels.
  change 0%nat with (4 * 0)%nat at 1.
  rewrite compareLoop_filter by lia. now rewrite Nat.sub_0_r.
Qed.

(** X9.  On a frame of at most 64 x 48 pixels every changed pixel is
    reported at a coordinate inside the frame. *)
Theorem changed_pixels_inside_frame (s : Z) (data prev : list Z) (pt : Point) :
  (length data <= 4 * 64 * 48)%nat ->
  In pt (activePixels s data prev) ->
  0 <= x pt < width /\ 0 <= y pt < height.
Proof.
  intros Hlen Hin.
  apply activePixels_In in Hin as (k & -> & Hk & _).
  unfold coordinate, width, height; cbn [x y].
  pose proof (Z.mod_pos_bound (Z.of_nat k) 64 ltac:(lia)).
  assert (0 <= Z.of_nat k / 64 < 48); [|lia].
  split; [apply Z.div_pos; lia|apply Z.div_lt_upper_bound; lia].
Qed.

Lemma changed_pixels_inside_frame_witness :
  0 <= x (mkPoint 1 0) < width /\ 0 <= y (mkPoint 1 0) < height.
Proof.
  apply (changed_pixels_inside_frame 20
           [10; 20; 30; 255; 40; 50; 60; 255]
           [10; 20; 30; 255; 40; 90; 60; 255]).
  - simpl; lia.
  - vm_compute; auto.
Defined.

Lemma filter_length_mono {A} (f g : A -> bool) l :
  (forall a, f a = true -> g a = true) ->
  (length (filter f l) <= length (filter g l))%nat.
Proof.
  intros Hfg; induction l as [|a l IH]; [reflexivity|].
  cbn [filter]. destruct (f a) eqn:Ef.
  - rewrite (Hfg a Ef). cbn [length]. lia.
  - destruct (g a); cbn [length]; lia.
Qed.

(** X10.  A lower sensitivity value is more sensitive: every pixel that
    counts as changed at a sensitivity value still counts at every lower
    value, so the count of changed pixels can only grow. *)
Theorem lower_value_more_sensitive (s s' : Z) (data prev : list Z) :
  s <= s' ->
  (forall pt, In pt (activePixels s' data prev) ->
              In pt (activePixels s data prev))
  /\ (length (activePixels s' data prev)
      <= length (activePixels s data prev))%nat.
Proof.
  intros Hle.
  assert (forall k, changedAt s' data prev k = true ->
                    changedAt s data prev k = true) as Hmono.
  { intros k; unfold changedAt, exceedsSensitivity.
    destruct (pixelDiff data prev (4 * k)); [|discriminate].
    rewrite !Z.ltb_lt; lia. }
  split.
  - intros pt. rewrite !activePixels_filter, !in_map_iff.
    intros (k & E & Hk). exists k; split; [exact E|].
    apply filter_In in Hk as [Hk1 Hk2]. apply filter_In; auto.
  - rewrite !activePixels_filter, !length_map.
    now apply filter_length_mono.
Qed.

Lemma lower_value_more_sensitive_witness :
  (forall pt,
      In pt (activePixels 50 [10; 20; 30; 255] [10; 60; 30; 255]) ->
      In pt (activePixels 20 [10; 20; 30; 255] [10; 60; 30; 255]))
  /\ Nat.le
       (length (activePixels 50 [10; 20; 30; 255] [10; 60; 30; 255]))
       (length (activePixels 20 [10; 20; 30; 255] [10; 60; 30; 255])).
Proof.
  apply (lower_value_more_sensitive 20 50). lia.
Defined.

Lemma pixelDiff_sym data prev i : pixelDiff data prev i = pixelDiff prev data i.
Proof.
  assert (forall j, channelDiff data prev j = channelDiff prev data j) as H.
  { intros j; unfold channelDiff.
    destruct (nth_error data j), (nth_error prev j); try reflexivity.
    f_equal. lia. }
  unfold pixelDiff. now rewrite !H.
Qed.

(** X11.  For two buffers of one size the comparison does not depend on
    which of the two is the previous frame. *)
Theorem comparison_symmetric (s : Z) (data prev : list Z) :
  length data = length prev ->
  activePixels s data prev = activePixels s prev data.
Proof.
  intros Hlen. rewrite !activePixels_filter. unfold pixelCount.
  rewrite Hlen. f_equal. apply filter_ext.
  intros k; unfold changedAt. now rewrite pixelDiff_sym.
Qed.

Lemma comparison_symmetric_witness :
  activePixels 20 [10; 20; 30; 255; 40; 50; 60; 255]
                  [10; 20; 30; 255; 40; 90; 60; 255]
  = activePixels 20 [10; 20; 30; 255; 40; 90; 60; 255]
                    [10; 20; 30; 255; 40; 50; 60; 255].
Proof.
  apply (comparison_symmetric 20
           [10; 20; 30; 255; 40; 50; 60; 255]
           [10; 20; 30; 255; 40; 90; 60; 255]).
  reflexivity.
Defined.

(** X12.  The fourth sample of a pixel (alpha) plays no part: two pairs of
    buffers that agree on every colour sample give the same changed
    pixels. *)
Theorem alpha_is_ignored (s : Z) (data data' prev prev' : list Z) :
  length data = length data' ->
  (forall i, (i mod 4 <> 3)%nat -> nth_error data i = nth_error data' i) ->
  (forall i, (i mod 4 <> 3)%nat -> nth_error prev i = nth_error prev' i) ->
  activePixels s data prev = activePixels s data' prev'.
Proof.
  intros Hlen Hd Hp. rewrite !activePixels_filter. unfold pixelCount.
  rewrite Hlen. f_equal. apply filter_ext.
  intros k; unfold changedAt, pixelDiff, channelDiff.
  assert ((4 * k) mod 4 = 0)%nat as H0
    by (rewrite Nat.mul_comm; apply Nat.Div0.mod_mul).
  assert ((4 * k + 1) mod 4 = 1)%nat as H1
    by (rewrite Nat.add_comm, Nat.mul_comm, Nat.Div0.mod_add; reflexivity).
  assert ((4 * k + 2) mod 4 = 2)%nat as H2
    by (rewrite Nat.add_comm, Nat.mul_comm, Nat.Div0.mod_add; reflexivity).
  rewrite !(Hd (4 * k)%nat), !(Hd (4 * k + 1)%nat), !(Hd (4 * k + 2)%nat),
    !(Hp (4 * k)%nat), !(Hp (4 * k + 1)%nat), !(Hp (4 * k + 2)%nat) by lia.
  reflexivity.
Qed.

Lemma alpha_is_ignored_witness :
  activePixels 20 [10; 20; 30; 255] [10; 60; 30; 255]
  = activePixels 20 [10; 20; 30; 0] [10; 60; 30; 77].
Proof.
  apply (alpha_is_ignored 20 [10; 20; 30; 255] [10; 20; 30; 0]
           [10; 60; 30; 255] [10; 60; 30; 77]).
  - reflexivity.
  - intros [|[|[|[|i]]]] H; try reflexivity. exfalso; apply H; reflexivity.
  - intros [|[|[|[|i]]]] H; try reflexivity. exfalso; apply H; reflexivity.
Defined.

Lemma NoDup_map_coordinate l : NoDup l -> NoDup (map coordinate l).
Proof.
  induction 1 as [|k l Hk Hl IH]; cbn [map]; constructor; [|exact IH].
  intros Hin. apply in_map_iff in Hin as (k' & E & Hk').
  apply coordinate_inj in E. now subst.
Qed.

(** X13.  No pixel is reported twice, and the count of changed pixels (the
    score shown against the threshold) is at most the number of pixels of
    the current frame. *)
Theorem each_pixel_once (s : Z) (data prev : list Z) :
  NoDup (activePixels s data prev)
  /\ (length (activePixels s data prev) <= (length data + 3) / 4)%nat.
Proof.
  rewrite activePixels_filter. split.
  - apply NoDup_map_coordinate, NoDup_filter, seq_NoDup.
  - rewrite length_map.
    apply (Nat.le_trans _ _ _ (filter_length_le _ _)).
    now rewrite length_seq.
Qed.

(* ================================================================== *)
(** * Further properties of the detection loop *)
(* ================================================================== *)

(** What one run of [detectMotion] does to the alert state, case by case. *)
Lemma detectMotion_cases frame r st :
  let st' := detectMotion frame r st in
  (~ motionSeen frame st
   /\ logs st' = logs st /\ lastAlertTime st' = lastAlertTime st
   /\ alertSounds st' = alertSounds st
   /\ pendingAnalyses st' = pendingAnalyses st
   /\ config st' = config st
   /\ (status st' = status st \/ status st' = IDLE))
  \/ (motionSeen frame st /\ inCooldown r st
      /\ logs st' = logs st /\ lastAlertTime st' = lastAlertTime st
      /\ alertSounds st' = alertSounds st
      /\ pendingAnalyses st' = pendingAnalyses st
      /\ config st' = config st
      /\ status st' = ALERT)
  \/ (motionSeen frame st /\ ~ inCooldown r st
      /\ logs st' =
           prependLog
             {| id := toString (clockId r); timestamp := clockStamp r;
                imageUrl := snapshotOf r; analysis := None;
                isAnalyzing := enableAI (config st) |}
             (logs st)
      /\ lastAlertTime st' = clockNow r
      /\ alertSounds st' =
           (if enableAudio (config st) then Datatypes.S (alertSounds st)
            else alertSounds st)
      /\ pendingAnalyses st' =
           pendingAnalyses st ++
           (if enableAI (config st) && truthy (snapshotOf r)
            then [(toString (clockId r), snapshotOf r)] else [])
      /\ config st' = config st
      /\ status st' = ALERT).
Proof.
  cbv zeta; unfold detectMotion, motionSeen.
  destruct frame as [data|].
  { destruct (prevFrameData st) as [prev|] eqn:Eprev.
    - match goal with
      | |- context [if ?b then _ else _] => destruct b eqn:Eb
      end.
      + apply Z.ltb_lt in Eb.
        cbn [setDebugDiff setOverlayPolygon config threshold] in Eb.
        match goal with
        | |- context [handleMotionDetected r ?s] => set (st2 := s)
        end.
        assert (inCooldown r st2 <-> inCooldown r st) as Hcd by reflexivity.
        assert (inCooldown r st \/ ~ inCooldown r st) as [H|H]
          by (unfold inCooldown; lia).
        * right; left.
          rewrite (handleMotionDetected_suppressed r st2 (proj2 Hcd H)).
          split; [exists data, prev; auto|].
          repeat split; auto.
        * right; right.
          rewrite (handleMotionDetected_qualifying r st2)
            by (intros H'; apply H, Hcd, H').
          split; [exists data, prev; auto|].
          repeat split; auto.
      + apply Z.ltb_ge in Eb.
        cbn [setDebugDiff setOverlayPolygon config threshold] in Eb.
        left. split.
        * intros (d & p & [= <-] & [= <-] & Hlt). lia.
        * repeat split; auto.
    - left. split; [intros (d & p & _ & [=] & _)|]. repeat split; auto. }
  left. split; [intros (d & p & [=] & _)|]. repeat split; auto.
Qed.

(** X17.  A tick creates a log entry, moves the last-alert time, starts a
    sound or requests a description only when it sees motion (two frames
    compared, more changed pixels than the threshold) and the cooldown has
    elapsed. *)
Theorem effects_need_motion (frame : option (list Z)) (r : Reading)
    (st : AppState) :
  logs (detectMotion frame r st) <> logs st
  \/ lastAlertTime (detectMotion frame r st) <> lastAlertTime st
  \/ alertSounds (detectMotion frame r st) <> alertSounds st
  \/ pendingAnalyses (detectMotion frame r st) <> pendingAnalyses st ->
  motionSeen frame st /\ ~ inCooldown r st.
Proof.
  intros Hchange.
  destruct (detectMotion_cases frame r st)
    as [(_ & Hl & Ht & Hs & Hp & _)|[(_ & _ & Hl & Ht & Hs & Hp & _)
       |(Hm & Hc & _)]]; [exfalso|exfalso|tauto];
    destruct Hchange as [H|[H|[H|H]]]; auto.
Qed.

Lemma effects_need_motion_witness :
  motionSeen (Some brightFrame) (setPrevFrameData darkFrame initialState)
  /\ ~ inCooldown (readingAt 1700000000000)
         (setPrevFrameData darkFrame initialState).
Proof.
  apply (effects_need_motion (Some brightFrame) (readingAt 1700000000000)
           (setPrevFrameData darkFrame initialState)).
  left. vm_compute. discriminate.
Defined.

(** X19.  The status becomes Alert only on a tick that sees motion: if it
    is Alert after a tick, it was Alert before or the tick saw motion. *)
Theorem alert_needs_motion (frame : option (list Z)) (r : Reading)
    (st : AppState) :
  status (detectMotion frame r st) = ALERT ->
  status st = ALERT \/ motionSeen frame st.
Proof.
  intros Halert.
  destruct (detectMotion_cases frame r st)
    as [(_ & _ & _ & _ & _ & _ & [Hs|Hs])|[(Hm & _)|(Hm & _)]]; auto.
  - left; congruence.
  - congruence.
Qed.

Lemma alert_needs_motion_witness :
  status (setPrevFrameData darkFrame initialState) = ALERT
  \/ motionSeen (Some brightFrame) (setPrevFrameData darkFrame initialState).
Proof.
  apply (alert_needs_motion (Some brightFrame) (readingAt 1700000000000)).
  vm_compute. reflexivity.
Defined.

Lemma step_status st e :
  status (step st e) = status st
  \/ status (step st e) = IDLE \/ status (step st e) = ALERT.
Proof.
  destruct e as [frame r|j d|j]; cbn [step].
  - destruct (detectMotion_cases frame r st)
      as [(_ & _ & _ & _ & _ & _ & [Hs|Hs])|[H|H]]; auto;
      right; right; apply H.
  - destruct (isPending j st); left; reflexivity.
  - destruct (isPending j st); left; reflexivity.
Qed.

(** X14.  The third status of the enumeration, DETECTING, is never entered:
    a run that does not start in it never shows it. *)
Theorem never_detecting (events : list Event) (st : AppState) :
  status st <> DETECTING -> status (run events st) <> DETECTING.
Proof.
  unfold run; revert st.
  induction events as [|e events IH]; intros st Hst; [exact Hst|].
  cbn [fold_left]. apply IH.
  destruct (step_status st e) as [H|[H|H]]; rewrite H;
    [exact Hst|discriminate|discriminate].
Qed.

Lemma never_detecting_witness :
  status (run [Tick (Some darkFrame) (readingAt 1700000000000);
               Tick (Some brightFrame) (readingAt 1700000000100);
               Rejected "1700000000101"%string]
              initialState) <> DETECTING.
Proof.
  apply (never_detecting _ initialState). discriminate.
Defined.

Lemma step_config st e : config (step st e) = config st.
Proof.
  destruct e as [frame r|j d|j]; cbn [step].
  - destruct (detectMotion_cases frame r st)
      as [H|[H|H]]; decompose [and] H; assumption.
  - destruct (isPending j st); reflexivity.
  - destruct (isPending j st); reflexivity.
Qed.

Lemma step_lastAlertTime st e :
  lastAlertTime (step st e) = lastAlertTime st
  \/ lastAlertTime st + cooldown (config st) * 1000
     <= lastAlertTime (step st e).
Proof.
  destruct e as [frame r|j d|j]; cbn [step].
  - destruct (detectMotion_cases frame r st)
      as [(_ & _ & Ht & _)|[(_ & _ & _ & Ht & _)|(_ & Hc & _ & Ht & _)]];
      auto.
    right. rewrite Ht. unfold inCooldown in Hc. lia.
  - destruct (isPending j st); left; reflexivity.
  - destruct (isPending j st); left; reflexivity.
Qed.

(** X24.  With a cooldown that is not negative, the last-alert time never
    goes back, and whenever it moves it moves by at least the cooldown:
    alerts that are logged are at least one cooldown apart. *)
Theorem alerts_one_cooldown_apart (events : list Event) (st : AppState) :
  0 <= cooldown (config st) ->
  lastAlertTime (run events st) = lastAlertTime st
  \/ lastAlertTime st + cooldown (config st) * 1000
     <= lastAlertTime (run events st).
Proof.
  unfold run; revert st.
  induction events as [|e events IH]; intros st Hcool; [now left|].
  cbn [fold_left].
  pose proof (step_config st e) as Hcfg.
  destruct (IH (step st e)) as [H|H]; [rewrite Hcfg; exact Hcool| |];
    rewrite ?Hcfg in H; destruct (step_lastAlertTime st e) as [H'|H'];
    rewrite ?H' in H; auto; right; lia.
Qed.

Lemma alerts_one_cooldown_apart_witness :
  let events := [Tick (Some darkFrame) (readingAt 1700000000000);
                 Tick (Some brightFrame) (readingAt 1700000000100);
                 Tick (Some darkFrame) (readingAt 1700000003100)] in
  lastAlertTime (run events initialState) = lastAlertTime initialState
  \/ lastAlertTime initialState + cooldown (config initialState) * 1000
     <= lastAlertTime (run events initialState).
Proof.
  apply (alerts_one_cooldown_apart _ initialState). simpl; lia.
Defined.

(** ** Description calls and the entries they patch *)

Lemma removePending_other i j l :
  i <> j ->
  existsb (fun c => String.eqb (fst c) i) (removePending j l)
  = existsb (fun c => String.eqb (fst c) i) l.
Proof.
  intros Hne; induction l as [|c l IH]; [reflexivity|].
  cbn [removePending existsb].
  destruct (String.eqb_spec (fst c) j) as [E|E].
  - destruct (String.eqb_spec (fst c) i) as [E'|E']; [congruence|reflexivity].
  - cbn [existsb]. now rewrite IH.
Qed.

Lemma analysesAccounted_settle j d st :
  analysesAccounted st ->
  analysesAccounted
    (setLogs (patchLog j d)
       (setPendingAnalyses (removePending j (pendingAnalyses st)) st)).
Proof.
  intros Hacc log Hin Han.
  cbn [setLogs setPendingAnalyses logs] in Hin.
  unfold patchLog in Hin. apply in_map_iff in Hin as (log0 & E & Hin0).
  destruct (String.eqb_spec (id log0) j) as [Ej|Ej].
  - subst log. cbn [isAnalyzing] in Han. discriminate.
  - subst log0. destruct (Hacc log Hin0 Han) as [H|H]; [now left|right].
    unfold isPending in *.
    cbn [setLogs setPendingAnalyses pendingAnalyses].
    now rewrite removePending_other.
Qed.

Lemma analysesAccounted_step st e :
  analysesAccounted st -> analysesAccounted (step st e).
Proof.
  intros Hacc. destruct e as [frame r|j d|j]; cbn [step].
  - destruct (detectMotion_cases frame r st)
      as [(_ & Hl & _ & _ & Hp & _)|[(_ & _ & Hl & _ & _ & Hp & _)
         |(_ & _ & Hl & _ & _ & Hp & _)]].
    + intros log Hin Han. rewrite Hl in Hin.
      unfold isPending. rewrite Hp. now apply Hacc.
    + intros log Hin Han. rewrite Hl in Hin.
      unfold isPending. rewrite Hp. now apply Hacc.
    + intros log Hin Han. rewrite Hl in Hin.
      unfold isPending. rewrite Hp, existsb_app.
      apply prependLog_In in Hin as [->|Hin].
      * cbn [isAnalyzing imageUrl id] in *. rewrite Han. cbn [andb].
        destruct (truthy (snapshotOf r)) eqn:Et.
        -- right. cbn [existsb fst]. rewrite String.eqb_refl.
           now rewrite orb_true_r.
        -- left. unfold truthy in Et.
           destruct (String.eqb_spec (snapshotOf r) "");
             [assumption|discriminate].
      * destruct (Hacc log Hin Han) as [H|H]; [now left|right].
        unfold isPending in H. now rewrite H.
  - destruct (isPending j st); [|exact Hacc].
    apply analysesAccounted_settle, Hacc.
  - destruct (isPending j st); [|exact Hacc].
    apply analysesAccounted_settle, Hacc.
Qed.

(** X15.  At every moment of a run of ticks and settled description
    calls, an entry that is shown as being analysed either has an empty
    snapshot or has a description call pending for its identifier. *)
Theorem analysing_entries_have_calls (events : list Event) (st : AppState) :
  analysesAccounted st -> analysesAccounted (run events st).
Proof.
  unfold run; revert st.
  induction events as [|e events IH]; intros st Hacc; [exact Hacc|].
  cbn [fold_left]. apply IH, analysesAccounted_step, Hacc.
Qed.

Lemma analysing_entries_have_calls_witness :
  analysesAccounted
    (run [Tick (Some darkFrame) (readingAt 1700000000000);
          Tick (Some brightFrame) (readingAt 1700000000100)]
         initialState).
Proof.
  apply (analysing_entries_have_calls _ initialState).
  intros log [].
Defined.

Lemma patchLog_spec j d prev :
  (forall log, In log (patchLog j d prev) -> id log = j ->
     isAnalyzing log = false /\ analysis log = Some d)
  /\ (forall log, id log <> j ->
        (In log (patchLog j d prev) <-> In log prev))
  /\ ((forall log, In log prev -> id log <> j) -> patchLog j d prev = prev).
Proof.
  unfold patchLog. split; [|split].
  - intros log Hin Hid. apply in_map_iff in Hin as (log0 & E & _).
    destruct (String.eqb_spec (id log0) j); subst log; [split; reflexivity|].
    contradiction.
  - intros log Hid; split; intros Hin.
    + apply in_map_iff in Hin as (log0 & E & Hin0).
      destruct (String.eqb_spec (id log0) j); subst log; [|exact Hin0].
      cbn [id] in Hid. contradiction.
    + apply in_map_iff. exists log. split; [|exact Hin].
      destruct (String.eqb_spec (id log) j); [contradiction|reflexivity].
  - intros Hno. rewrite <- (map_id prev) at 2. apply map_ext_in.
    intros log Hin. destruct (String.eqb_spec (id log) j); [|reflexivity].
    exfalso; eapply Hno; eauto.
Qed.

(** X16.  When a pending description call is fulfilled, every entry with
    its identifier gets the description and stops being shown as analysed,
    and every other entry is left as it is; if the entry has left the log in
    the meantime the result is dropped and the log is unchanged.  A rejected
    call does the same with the text "Analysis unavailable.". *)
Theorem settled_call_patches_its_entry (j d : String.string) (st : AppState) :
  isPending j st = true ->
  let done := step st (Fulfilled j d) in
  let failed := step st (Rejected j) in
  (forall log, In log (logs done) -> id log = j ->
     isAnalyzing log = false /\ analysis log = Some d)
  /\ (forall log, In log (logs failed) -> id log = j ->
        isAnalyzing log = false
        /\ analysis log = Some "Analysis unavailable."%string)
  /\ (forall log, id log <> j ->
        (In log (logs done) <-> In log (logs st))
        /\ (In log (logs failed) <-> In log (logs st)))
  /\ ((forall log, In log (logs st) -> id log <> j) ->
      logs done = logs st /\ logs failed = logs st).
Proof.
  intros Hpend; cbv zeta; cbn [step]. rewrite Hpend.
  unfold analysisFulfilled, analysisRejected.
  cbn [setLogs setPendingAnalyses logs pendingAnalyses].
  destruct (patchLog_spec j d (logs st)) as (H1 & H2 & H3).
  destruct (patchLog_spec j "Analysis unavailable."%string (logs st))
    as (H1' & H2' & H3').
  split; [exact H1|]. split; [exact H1'|]. split.
  - intros log Hid. split; [exact (H2 log Hid)|exact (H2' log Hid)].
  - intros Hno. split; [exact (H3 Hno)|exact (H3' Hno)].
Qed.

Lemma settled_call_patches_its_entry_witness :
  let st := handleMotionDetected (readingAt 1700000000000) initialState in
  let done := step st (Fulfilled "1700000000001" "A person walks by.") in
  let failed := step st (Rejected "1700000000001") in
  (forall log, In log (logs done) -> id log = "1700000000001"%string ->
     isAnalyzing log = false
     /\ analysis log = Some "A person walks by."%string)
  /\ (forall log, In log (logs failed) -> id log = "1700000000001"%string ->
        isAnalyzing log = false
        /\ analysis log = Some "Analysis unavailable."%string)
  /\ (forall log, id log <> "1700000000001"%string ->
        (In log (logs done) <-> In log (logs st))
        /\ (In log (logs failed) <-> In log (logs st)))
  /\ ((forall log, In log (logs st) -> id log <> "1700000000001"%string) ->
      logs done = logs st /\ logs failed = logs st).
Proof.
  apply (settled_call_patches_its_entry "1700000000001" "A person walks by."
           (handleMotionDetected (readingAt 1700000000000) initialState)).
  vm_compute. reflexivity.
Defined.

(** ** The polygon drawn over the video *)

Lemma getConvexHull_subset points c :
  In c (getConvexHull points) -> In c points.
Proof.
  destruct (Nat.le_gt_cases (length points) 2) as [Hsmall|Hlarge].
  - now rewrite (getConvexHull_short points Hsmall).
  - intros H. now apply (getConvexHull_vertices points c Hlarge) in H.
Qed.

Lemma getConvexHull_nonempty points :
  points <> [] -> getConvexHull points <> [].
Proof.
  intros Hne.
  destruct (Nat.le_gt_cases (length points) 2) as [Hsmall|Hlarge].
  - now rewrite (getConvexHull_short points Hsmall).
  - destruct (getConvexHull_shape points Hlarge)
      as (a & z & midL & midU & _ & _ & ->). discriminate.
Qed.

Lemma handleMotionDetected_config r st :
  config (handleMotionDetected r st) = config st.
Proof.
  destruct (Z.lt_ge_cases (clockNow r - lastAlertTime st)
                          (cooldown (config st) * 1000)) as [H|H].
  - now rewrite handleMotionDetected_suppressed.
  - rewrite handleMotionDetected_qualifying; [reflexivity|].
    unfold inCooldown; lia.
Qed.

Lemma detectMotion_overlay data prev r st :
  prevFrameData st = Some prev ->
  let changed := activePixels (sensitivity (config st)) data prev in
  overlayPolygon (detectMotion (Some data) r st)
  = if threshold (config st) <? Z.of_nat (length changed)
    then getConvexHull changed else [].
Proof.
  intros Hprev; cbv zeta. unfold detectMotion. rewrite Hprev.
  cbn [setDebugDiff setOverlayPolygon config].
  destruct (threshold (config st) <? _); reflexivity.
Qed.

(** X18.  On a tick that compares two frames, the polygon left on the
    overlay is drawn only when motion is seen; each of its vertices is a
    pixel whose colour changed by more than the sensitivity and lies
    inside the 64 x 48 frame; with a threshold that is not negative, motion
    always leaves a polygon; and with three or more changed pixels the
    polygon encloses every changed pixel. *)
Theorem overlay_outlines_changed_pixels (data prev : list Z) (r : Reading)
    (st : AppState) :
  prevFrameData st = Some prev ->
  (length data <= 4 * 64 * 48)%nat ->
  let poly := overlayPolygon (detectMotion (Some data) r st) in
  let changed := activePixels (sensitivity (config st)) data prev in
  (poly <> [] -> motionSeen (Some data) st)
  /\ (forall c, In c poly ->
        (exists k, c = coordinate k
           /\ sensitivity (config st) < colourDistance data prev k)
        /\ 0 <= x c < width /\ 0 <= y c < height)
  /\ (0 <= threshold (config st) -> motionSeen (Some data) st -> poly <> [])
  /\ (forall u v q, (3 <= length changed)%nat ->
        loopEdge poly u v -> In q changed -> 0 <= cross u v q).
Proof.
  intros Hprev Hlen; cbv zeta.
  rewrite (detectMotion_overlay data prev r st Hprev); cbv zeta.
  destruct (Z.ltb_spec (threshold (config st))
              (Z.of_nat (length (activePixels (sensitivity (config st))
                                   data prev)))) as [Hlt|Hge].
  - split; [|split; [|split]].
    + intros _. exists data, prev. auto.
    + intros c Hc. apply getConvexHull_subset in Hc.
      apply activePixels_In in Hc as (k & -> & Hk & _ & Hs).
      split; [exists k; auto|].
      unfold coordinate, width, height; cbn [x y].
      pose proof (Z.mod_pos_bound (Z.of_nat k) 64 ltac:(lia)).
      assert (0 <= Z.of_nat k / 64 < 48); [|lia].
      split; [apply Z.div_pos; lia|apply Z.div_lt_upper_bound; lia].
    + intros Hthr _. apply getConvexHull_nonempty.
      destruct (activePixels _ data prev); [cbn in Hlt; lia|discriminate].
    + intros u v q H3 He Hq. exact (getConvexHull_encloses _ u v q H3 He Hq).
  - split; [|split; [|split]].
    + intros H; now contradiction H.
    + intros c [].
    + intros _ (d & p & [= <-] & Hp & Hlt).
      rewrite Hprev in Hp. injection Hp as <-. lia.
    + intros u v q _ (l1 & l2 & E). cbn in E.
      destruct l1; discriminate E.
Qed.

Lemma overlay_outlines_changed_pixels_witness :
  let st := setPrevFrameData darkFrame initialState in
  let poly :=
    overlayPolygon
      (detectMotion (Some brightFrame) (readingAt 1700000000000) st) in
  let changed := activePixels (sensitivity (config st)) brightFrame darkFrame in
  (poly <> [] -> motionSeen (Some brightFrame) st)
  /\ (forall c, In c poly ->
        (exists k, c = coordinate k
           /\ sensitivity (config st) < colourDistance brightFrame darkFrame k)
        /\ 0 <= x c < width /\ 0 <= y c < height)
  /\ (0 <= threshold (config st) -> motionSeen (Some brightFrame) st ->
      poly <> [])
  /\ (forall u v q, (3 <= length changed)%nat ->
        loopEdge poly u v -> In q changed -> 0 <= cross u v q).
Proof.
  apply (overlay_outlines_changed_pixels brightFrame darkFrame
           (readingAt 1700000000000) (setPrevFrameData darkFrame initialState)).
  - reflexivity.
  - unfold brightFrame. rewrite repeat_length. lia.
Defined.

(* ================================================================== *)
(** * Further properties of the description service and the log item *)
(* ================================================================== *)

Lemma split_cons sep s : exists piece pieces, split sep s = piece :: pieces.
Proof.
  induction s as [|c s (piece & pieces & IH)]; cbn [split]; [eauto|].
  destruct (Ascii.eqb c sep); [eauto|]. rewrite IH; eauto.
Qed.

Lemma split_no_sep sep s : hasChar sep s = false -> split sep s = [s].
Proof.
  induction s as [|c s IH]; cbn [split hasChar]; [reflexivity|].
  intros H. apply orb_false_iff in H as [Hc Hs].
  now rewrite Hc, (IH Hs).
Qed.

Lemma split_header sep header rest :
  hasChar sep header = false ->
  split sep (String.append header (String.String sep rest))
  = header :: split sep rest.
Proof.
  induction header as [|c h IH]; cbn [split hasChar String.append].
  - intros _. now rewrite Ascii.eqb_refl.
  - intros H. apply orb_false_iff in H as [Hc Hs].
    now rewrite Hc, (IH Hs).
Qed.

Lemma split_pieces sep s piece :
  In piece (split sep s) -> hasChar sep piece = false.
Proof.
  revert piece; induction s as [|c s IH]; cbn [split]; intros piece Hin.
  - destruct Hin as [<-|[]]. reflexivity.
  - destruct (Ascii.eqb c sep) eqn:Ec.
    + destruct Hin as [<-|Hin]; [reflexivity|now apply IH].
    + destruct (split_cons sep s) as (p0 & ps & E). rewrite E in *.
      destruct Hin as [<-|Hin].
      * cbn [hasChar]. rewrite Ec. apply IH. now left.
      * apply IH. now right.
Qed.

Lemma truthy_true s : truthy s = true <-> s <> String.EmptyString.
Proof.
  unfold truthy.
  destruct (String.eqb_spec s String.EmptyString) as [E|E]; cbn [negb].
  - split; [discriminate|intros H; contradiction].
  - split; [intros _; exact E|reflexivity].
Qed.

Lemma cleanBase64_plain s : hasChar ","%char s = false -> cleanBase64 s = s.
Proof.
  intros H. unfold cleanBase64. now rewrite (split_no_sep _ _ H).
Qed.

Lemma cleanBase64_cases s :
  cleanBase64 s = s
  \/ (cleanBase64 s <> String.EmptyString
      /\ hasChar ","%char (cleanBase64 s) = false
      /\ s <> String.EmptyString).
Proof.
  unfold cleanBase64.
  destruct (nth_error (split ","%char s) 1) as [piece|] eqn:E; [|now left].
  destruct (truthy piece) eqn:Et; [right|now left].
  split; [now apply truthy_true|]. split.
  - apply (split_pieces ","%char s). eapply nth_error_In; eauto.
  - intros ->. discriminate E.
Qed.

Lemma cleanBase64_data_url header payload :
  hasChar ","%char header = false ->
  hasChar ","%char payload = false ->
  payload <> String.EmptyString ->
  cleanBase64 (String.append header (String.String ","%char payload))
  = payload.
Proof.
  intros Hh Hp Hne. unfold cleanBase64.
  rewrite (split_header _ _ _ Hh), (split_no_sep _ _ Hp).
  cbn [nth_error]. now rewrite (proj2 (truthy_true payload) Hne).
Qed.

(** X20.  A data URL is cut down to its payload: with a header free of
    commas and a non-empty payload free of commas, what is sent for
    header "," payload is the payload. *)
Theorem data_url_header_is_stripped (header payload : String.string) :
  hasChar ","%char header = false ->
  hasChar ","%char payload = false ->
  payload <> String.EmptyString ->
  cleanBase64 (String.append header (String.String ","%char payload))
  = payload.
Proof.
  exact (cleanBase64_data_url header payload).
Qed.

Lemma data_url_header_is_stripped_witness :
  cleanBase64 "data:image/jpeg;base64,AA" = "AA"%string.
Proof.
  apply (data_url_header_is_stripped "data:image/jpeg;base64" "AA").
  - reflexivity.
  - reflexivity.
  - discriminate.
Defined.

(** X21.  Image data that has no comma, so no header, is sent as it is. *)
Theorem bare_data_is_kept (base64Image : String.string) :
  hasChar ","%char base64Image = false ->
  cleanBase64 base64Image = base64Image.
Proof.
  exact (cleanBase64_plain base64Image).
Qed.

Lemma bare_data_is_kept_witness : cleanBase64 "AA" = "AA"%string.
Proof.
  apply (bare_data_is_kept "AA"). reflexivity.
Defined.

(** X22.  Stripping the header twice is the same as stripping it once, and
    what is sent is empty only when the snapshot is the empty string. *)
Theorem header_stripping_idempotent (base64Image : String.string) :
  cleanBase64 (cleanBase64 base64Image) = cleanBase64 base64Image
  /\ (cleanBase64 base64Image = String.EmptyString
      <-> base64Image = String.EmptyString).
Proof.
  destruct (cleanBase64_cases base64Image) as [E|(Hne & Hc & Hs)].
  - rewrite !E. split; [reflexivity|tauto].
  - split; [now apply cleanBase64_plain|].
    split; intros H; contradiction.
Qed.

Section GeminiServiceFacts.

Variable trim : String.string -> String.string.
Variable generateContent : String.string -> Generated.

Lemma analyzeSecuritySnapshot_truthy base64Image :
  truthy (analyzeSecuritySnapshot trim generateContent base64Image) = true.
Proof.
  unfold analyzeSecuritySnapshot.
  destruct (generateContent _) as [|[text|]]; try reflexivity.
  destruct (truthy (trim text)) eqn:E; [exact E|reflexivity].
Qed.

(** X23.  The description is never the empty string, whatever the image,
    whatever the model answers (a text, a text that is empty once trimmed,
    no text at all) and whether or not the call fails. *)
Theorem description_never_empty (base64Image : String.string) :
  analyzeSecuritySnapshot trim generateContent base64Image
    <> String.EmptyString.
Proof.
  apply truthy_true, analyzeSecuritySnapshot_truthy.
Qed.

(** X25.  Once the description call of an entry is fulfilled, the log item
    of that entry shows exactly the description returned by the service:
    it no longer shows the analysing marker, and the fallback to the
    default text for an empty description is never taken.  After a rejected
    call it shows "Analysis unavailable.". *)
Theorem item_shows_description (j base64Image : String.string)
    (st : AppState) (log : MotionLog) :
  isPending j st = true ->
  id log = j ->
  let description :=
    analyzeSecuritySnapshot trim generateContent base64Image in
  (In log (logs (step st (Fulfilled j description))) ->
     itemText log = description)
  /\ (In log (logs (step st (Rejected j))) ->
      itemText log = "Analysis unavailable."%string).
Proof.
  intros Hpend Hid; cbv zeta; cbn [step]. rewrite Hpend.
  unfold analysisFulfilled, analysisRejected.
  cbn [setLogs setPendingAnalyses logs].
  split; intros Hin.
  - destruct (patchLog_spec j
                (analyzeSecuritySnapshot trim generateContent base64Image)
                (logs st)) as (H & _).
    destruct (H log Hin Hid) as [Ha Hb].
    unfold itemText. rewrite Ha, Hb.
    now rewrite analyzeSecuritySnapshot_truthy.
  - destruct (patchLog_spec j "Analysis unavailable."%string (logs st))
      as (H & _).
    destruct (H log Hin Hid) as [Ha Hb].
    unfold itemText. now rewrite Ha, Hb.
Qed.

End GeminiServiceFacts.

Lemma item_shows_description_witness :
  let st := handleMotionDetected (readingAt 1700000000000) initialState in
  let log :=
    {| id := "1700000000001"; timestamp := 1700000000001;
       imageUrl := "data:image/jpeg;base64,AA";
       analysis := Some "Activity detected."%string;
       isAnalyzing := false |} in
  let description :=
    analyzeSecuritySnapshot (fun s => s) (fun _ => GenerateResponse None)
      "data:image/jpeg;base64,AA" in
  (In log (logs (step st (Fulfilled "1700000000001" description))) ->
     itemText log = description)
  /\ (In log (logs (step st (Rejected "1700000000001"))) ->
      itemText log = "Analysis unavailable."%string).
Proof.
  apply (item_shows_description (fun s => s) (fun _ => GenerateResponse None)
           "1700000000001" "data:image/jpeg;base64,AA"
           (handleMotionDetected (readingAt 1700000000000) initialState)).
  - vm_compute. reflexivity.
  - reflexivity.
Defined.

(** X26.  The entry created by a qualifying alert is shown as
    "Analyzing..." when descriptions are enabled and as "Motion Detected"
    when they are not. *)
Theorem new_item_text (r : Reading) (st : AppState) :
  ~ inCooldown r st ->
  exists newLog rest,
    logs (handleMotionDetected r st) = newLog :: rest
    /\ id newLog = toString (clockId r)
    /\ itemText newLog =
         if enableAI (config st) then "Analyzing..."%string
         else "Motion Detected"%string.
Proof.
  intros Hc. rewrite (handleMotionDetected_qualifying r st Hc).
  cbn [logs]. unfold prependLog, MAX_LOGS. cbn [firstn].
  eexists; eexists. split; [reflexivity|]. split; [reflexivity|].
  unfold itemText; cbn [isAnalyzing analysis].
  destruct (enableAI (config st)); reflexivity.
Qed.

Lemma new_item_text_witness :
  exists newLog rest,
    logs (handleMotionDetected (readingAt 1700000000000) initialState)
      = newLog :: rest
    /\ id newLog = toString (clockId (readingAt 1700000000000))
    /\ itemText newLog =
         if enableAI (config initialState) then "Analyzing..."%string
         else "Motion Detected"%string.
Proof.
  apply (new_item_text (readingAt 1700000000000) initialState).
  unfold inCooldown; simpl; lia.
Defined.
